(** * fileutils: symlink-aware rename, directory lock, recursive chown

    A shallow embedding of the Go package [fileutils] (functions
    [Lrename], [LockDir], [ChownRecursiveFrom] and the error type
    [SymlinkResolutionError]) over a model of the parts of the Go
    standard library ([os], [path/filepath], [errors], [golang.org/x/sys/unix])
    that the package calls. *)

From Stdlib Require Import ZArith NArith Lia.
From stdpp Require Import base option list strings gmap sorting.

Open Scope Z_scope.

(** Paths are sequences of components; [filepath.Join dir name] appends a
    component. *)
Abbreviation path := (list string).

Definition Join (dir : path) (name : string) : path := dir ++ [name].

Definition path_str (p : path) : string := "/" +:+ String.concat "/" p.

(** ** Go error values *)

Inductive Errno :=
| ENOENT | EACCES | EPERM | EEXIST | ENOTDIR | EISDIR | EINVAL
| ENOTEMPTY | EBADF | EIO | ELOOP | EBUSY | ENOSPC | EROFS | ENOLCK.

#[global] Instance Errno_eq_dec : EqDecision Errno.
Proof. solve_decision. Defined.

(** The dynamic values an [error] interface holds in this program.  A nil
    interface is [None] in [option error].

    - [SyscallErrno]: [syscall.Errno], a value type.
    - [PathError], [LinkError]: [*fs.PathError], [*os.LinkError].
    - [errorString]: what [errors.New] and [fmt.Errorf] without [%w] build.
    - [wrapError]: what [fmt.Errorf] with one [%w] builds; [msg] is the
      formatted text and [err] the wrapped operand.
    - [ESymlinkResolution]: a [SymlinkResolutionError] struct value.
    - [SkipDir], [SkipAll], [ErrClosed]: the sentinels of [io/fs] and [os]. *)
#[warnings="-register-all"]
Inductive error :=
| SyscallErrno (e : Errno)
| PathError (Op : string) (Path : path) (Err : error)
| LinkError (Op : string) (Old New : path) (Err : error)
| errorString (s : string)
| wrapError (msg : string) (err : error)
| ESymlinkResolution (msg : string) (err : option error)
| SkipDir
| SkipAll
| ErrClosed.

(** Interface comparison [a == b].  Struct and integer values compare by
    contents, as in Go.  Pointer-typed errors compare by identity in Go; the
    model identifies two such errors when their contents agree, so
    [go_eq a b = false] always means that Go's [==] is false as well. *)
Fixpoint go_eq (a b : error) : bool :=
  match a, b with
  | SyscallErrno x, SyscallErrno y => bool_decide (x = y)
  | PathError o p e, PathError o' p' e' =>
      bool_decide (o = o') && bool_decide (p = p') && go_eq e e'
  | LinkError o p q e, LinkError o' p' q' e' =>
      bool_decide (o = o') && bool_decide (p = p') && bool_decide (q = q')
      && go_eq e e'
  | errorString s, errorString s' => bool_decide (s = s')
  | wrapError m e, wrapError m' e' => bool_decide (m = m') && go_eq e e'
  | ESymlinkResolution m e, ESymlinkResolution m' e' =>
      bool_decide (m = m') &&
      match e, e' with
      | None, None => true
      | Some x, Some y => go_eq x y
      | _, _ => false
      end
  | SkipDir, SkipDir => true
  | SkipAll, SkipAll => true
  | ErrClosed, ErrClosed => true
  | _, _ => false
  end.

Definition errno_text (e : Errno) : string :=
  match e with
  | ENOENT => "no such file or directory"
  | EACCES => "permission denied"
  | EPERM => "operation not permitted"
  | EEXIST => "file exists"
  | ENOTDIR => "not a directory"
  | EISDIR => "is a directory"
  | EINVAL => "invalid argument"
  | ENOTEMPTY => "directory not empty"
  | EBADF => "bad file descriptor"
  | EIO => "input/output error"
  | ELOOP => "too many levels of symbolic links"
  | EBUSY => "device or resource busy"
  | ENOSPC => "no space left on device"
  | EROFS => "read-only file system"
  | ENOLCK => "no locks available"
  end.

(** The struct of the source: [type SymlinkResolutionError struct { msg string; err error }]. *)
Record SymlinkResolutionError := mkSRE { msg : string; err : option error }.

(** The method [Error() string] of every error kind ([%v] of a nil error
    prints [<nil>]). *)
Fixpoint Error (e : error) : string :=
  match e with
  | SyscallErrno n => errno_text n
  | PathError op p e' => op +:+ " " +:+ path_str p +:+ ": " +:+ Error e'
  | LinkError op p q e' =>
      op +:+ " " +:+ path_str p +:+ " " +:+ path_str q +:+ ": " +:+ Error e'
  | errorString s => s
  | wrapError m _ => m
  | ESymlinkResolution m c =>
      m +:+ ": " +:+ match c with Some e' => Error e' | None => "<nil>" end
  | SkipDir => "skip this directory"
  | SkipAll => "skip everything and stop the walk"
  | ErrClosed => "file already closed"
  end.

(** [fmt.Errorf(prefix + "%w", err)] *)
Definition Errorf_w (prefix : string) (e : error) : error :=
  wrapError (prefix +:+ Error e) e.

(** A struct value stored in an [error] interface. *)
Definition as_error (e : SymlinkResolutionError) : error :=
  ESymlinkResolution (msg e) (err e).

Module SRE.

(** [func (e SymlinkResolutionError) Error() string] *)
Definition Error (e : SymlinkResolutionError) : string :=
  Error (as_error e).

(** [func (e SymlinkResolutionError) Unwrap() error] *)
Definition Unwrap (e : SymlinkResolutionError) : option error := err e.

(** [func (e SymlinkResolutionError) Is(target error) bool]:
    [return target == SymlinkResolutionError{}] *)
Definition Is (e : SymlinkResolutionError) (target : error) : bool :=
  go_eq target (as_error {| msg := EmptyString; err := None |}).

End SRE.

(** [Unwrap] as [errors.Is] finds it on each kind. *)
Definition Unwrap (e : error) : option error :=
  match e with
  | PathError _ _ c | LinkError _ _ _ c | wrapError _ c => Some c
  | ESymlinkResolution m c => SRE.Unwrap (mkSRE m c)
  | _ => None
  end.

(** The [Is(error) bool] method, for the kinds that have one.
    ([syscall.Errno] has one too; it only answers for the [os] sentinels
    ErrPermission, ErrExist and ErrNotExist, which this program never
    passes as a target, so it answers [false] on every target below.) *)
Definition Is_method (e target : error) : bool :=
  match e with
  | ESymlinkResolution m c => SRE.Is (mkSRE m c) target
  | _ => false
  end.

(** [errors.Is(err, target)] for non-nil arguments: walk the [Unwrap] chain
    of [err]; at each link succeed if the link [==] target or its [Is]
    method accepts the target. *)
Fixpoint errors_Is (e target : error) : bool :=
  go_eq e target || Is_method e target ||
  match e with
  | PathError _ _ c | LinkError _ _ _ c | wrapError _ c => errors_Is c target
  | ESymlinkResolution _ (Some c) => errors_Is c target
  | _ => false
  end.

(** ** The file system and process state the package acts on *)

Inductive ftype :=
| TFile (data : string)
| TDir
| TSymlink (target : path).

#[global] Instance ftype_eq_dec : EqDecision ftype.
Proof. solve_decision. Defined.

(** One directory entry of the file system: its type, permission bits and
    owner.  Entries are keyed by their full path; a symbolic link stores the
    full path it points to. *)
Record inode := mkInode { typ : ftype; perm : Z; uid : N; gid : N }.

#[global] Instance inode_eq_dec : EqDecision inode.
Proof. solve_decision. Defined.

(** The calls the package makes into [os], [path/filepath] and [unix]. *)
Inductive call :=
| CLstat (p : path)
| CEvalSymlinks (p : path)
| CRename (old new : path)
| COpenFile (p : path) (flag perm : Z)
| CFlock (fd how : Z)
| CClose (fd : Z)
| CReadDir (p : path)
| CLchown (p : path) (uid gid : Z).

#[global] Instance call_eq_dec : EqDecision call.
Proof. solve_decision. Defined.

(** The world:
    - [fs]: the entries of the file system;
    - [fds]: the open descriptors and the path each was opened on
      (descriptor numbers are never reused, [next_fd] is the next one);
    - [flocks]: which descriptor holds the advisory lock of a file;
    - [proc_uid], [proc_gid]: the owner given to files the process creates;
    - [faults]: the environment; a call listed here fails with that errno
      (permissions, immutable files, I/O errors, ...);
    - [trace]: the calls made so far, oldest first. *)
Record World := mkWorld {
  fs : gmap path inode;
  fds : gmap nat path;
  flocks : gmap path nat;
  next_fd : nat;
  proc_uid : N;
  proc_gid : N;
  faults : call → option Errno;
  trace : list call
}.

Definition set_fs (f : gmap path inode → gmap path inode) (w : World) : World :=
  mkWorld (f (fs w)) (fds w) (flocks w) (next_fd w) (proc_uid w) (proc_gid w)
          (faults w) (trace w).
Definition set_fds (f : gmap nat path → gmap nat path) (w : World) : World :=
  mkWorld (fs w) (f (fds w)) (flocks w) (next_fd w) (proc_uid w) (proc_gid w)
          (faults w) (trace w).
Definition set_flocks (f : gmap path nat → gmap path nat) (w : World) : World :=
  mkWorld (fs w) (fds w) (f (flocks w)) (next_fd w) (proc_uid w) (proc_gid w)
          (faults w) (trace w).
Definition set_next_fd (n : nat) (w : World) : World :=
  mkWorld (fs w) (fds w) (flocks w) n (proc_uid w) (proc_gid w)
          (faults w) (trace w).
Definition set_trace (f : list call → list call) (w : World) : World :=
  mkWorld (fs w) (fds w) (flocks w) (next_fd w) (proc_uid w) (proc_gid w)
          (faults w) (f (trace w)).

(** ** A state monad over the world *)

Definition M (A : Type) : Type := World → A * World.

#[global] Instance M_ret : MRet M := λ A a w, (a, w).
#[global] Instance M_bind : MBind M :=
  λ A B k m w, let '(a, w') := m w in k a w'.

Definition get : M World := λ w, (w, w).
Definition modify (f : World → World) : M unit := λ w, (tt, f w).
Definition log (c : call) : M unit := modify (set_trace (λ t, t ++ [c])).

(** Go results [(T, error)]: the value is meaningful only when the error
    is nil. *)
Inductive result (T : Type) :=
| Ok (v : T)
| Err (e : error).
Arguments Ok {T} v.
Arguments Err {T} e.

(** ** [os.FileInfo], [syscall.Stat_t], [fs.DirEntry] *)

Definition ModeDir : Z := Z.shiftl 1 31.
Definition ModeSymlink : Z := Z.shiftl 1 27.
Definition ModePerm : Z := 511.

Record Stat_t := mkStat { Uid : N; Gid : N }.

Record FileInfo := mkFileInfo {
  fi_name : string;
  fi_mode : Z;
  fi_sys : option Stat_t
}.

Definition Mode (fi : FileInfo) : Z := fi_mode fi.
Definition FileInfo_IsDir (fi : FileInfo) : bool :=
  negb (Z.land (Mode fi) ModeDir =? 0).
(** [info.Sys()] asserted to a pointer to [syscall.Stat_t], with the [ok]
    flag of the assertion. *)
Definition Sys (fi : FileInfo) : option Stat_t := fi_sys fi.

Definition type_bits (t : ftype) : Z :=
  match t with
  | TFile _ => 0
  | TDir => ModeDir
  | TSymlink _ => ModeSymlink
  end.

Definition base (p : path) : string := List.last p "/".

(** What [lstat] reports for an entry: the permission bits masked with
    [ModePerm], the type bits, and the raw owner. *)
Definition fileinfo_of (p : path) (i : inode) : FileInfo :=
  {| fi_name := base p;
     fi_mode := Z.lor (Z.land (perm i) ModePerm) (type_bits (typ i));
     fi_sys := Some {| Uid := uid i; Gid := gid i |} |}.

(** The two implementations of [fs.DirEntry] the walk meets:
    [fs.FileInfoToDirEntry(info)] for the root, and the entries of
    [os.ReadDir], which carry the type the directory reported and fetch the
    rest on demand. *)
Inductive DirEntry :=
| dirInfo (fileInfo : FileInfo)
| unixDirent (parent : path) (name : string) (typ : Z) (info : option FileInfo).

Definition DirEntry_Name (d : DirEntry) : string :=
  match d with
  | dirInfo fi => fi_name fi
  | unixDirent _ n _ _ => n
  end.

Definition DirEntry_IsDir (d : DirEntry) : bool :=
  match d with
  | dirInfo fi => FileInfo_IsDir fi
  | unixDirent _ _ t _ => negb (Z.land t ModeDir =? 0)
  end.

(** ** The calls into [os], [path/filepath] and [unix]

    Every call appends itself to the trace, fails with the errno the
    environment lists for it, and otherwise acts on the file system as
    below. *)

(** [lstat]: the entry itself, never what a link points to. *)
Definition lstat_at (w : World) (p : path) : result FileInfo :=
  match faults w (CLstat p) with
  | Some e => Err (PathError "lstat" p (SyscallErrno e))
  | None =>
      match fs w !! p with
      | None => Err (PathError "lstat" p (SyscallErrno ENOENT))
      | Some i => Ok (fileinfo_of p i)
      end
  end.

Definition os_Lstat (name : path) : M (result FileInfo) :=
  log (CLstat name);; w ← get; mret (lstat_at w name).

(** Follow a chain of links to its end.  [resolve] wants the end to exist
    ([filepath.EvalSymlinks] gives up after 255 links); [chase] also accepts
    a missing end, as [open] with [O_CREATE] does. *)
Fixpoint resolve (links : nat) (m : gmap path inode) (p : path) : result path :=
  match m !! p with
  | None => Err (PathError "lstat" p (SyscallErrno ENOENT))
  | Some i =>
      match typ i with
      | TSymlink t =>
          match links with
          | O => Err (errorString "EvalSymlinks: too many links")
          | S n => resolve n m t
          end
      | _ => Ok p
      end
  end.

Fixpoint chase (links : nat) (m : gmap path inode) (p : path) : option path :=
  match m !! p with
  | None => Some p
  | Some i =>
      match typ i with
      | TSymlink t =>
          match links with
          | O => None
          | S n => chase n m t
          end
      | _ => Some p
      end
  end.

Lemma chase_absent n m p : m !! p = None → chase n m p = Some p.
Proof. intros H. destruct n; simpl; by rewrite H. Qed.

Arguments chase : simpl never.

Definition filepath_EvalSymlinks (p : path) : M (result path) :=
  log (CEvalSymlinks p);; w ← get;
  mret match faults w (CEvalSymlinks p) with
       | Some e => Err (PathError "lstat" p (SyscallErrno e))
       | None => resolve 255 (fs w) p
       end.

Definition parent (p : path) : path := take (length p - 1)%nat p.

Definition is_dir (m : gmap path inode) (p : path) : bool :=
  match m !! p with
  | Some i => bool_decide (typ i = TDir)
  | None => false
  end.

Definition has_children (m : gmap path inode) (p : path) : bool :=
  bool_decide (Exists (λ k, p ≠ k ∧ p `prefix_of` k) (elements (dom m))).

(** Where an entry ends up when [old] is renamed to [new]: the entries at
    and below [old] move below [new], what was at [new] is replaced, the
    rest stays. *)
Definition rekey (old new k : path) : option path :=
  if decide (old `prefix_of` k) then Some (new ++ drop (length old) k)
  else if decide (new `prefix_of` k) then None
  else Some k.

Definition move_tree (old new : path) (m : gmap path inode) : gmap path inode :=
  list_to_map
    (omap (λ kv : path * inode, (λ k', (k', kv.2)) <$> rekey old new kv.1)
          (map_to_list m)).

(** The [rename(2)] system call. *)
Definition syscall_Rename (m : gmap path inode) (old new : path)
  : Errno + gmap path inode :=
  match m !! old with
  | None => inl ENOENT
  | Some io =>
      if negb (is_dir m (parent new)) then
        inl (if m !! parent new is Some _ then ENOTDIR else ENOENT)
      else if decide (old = new) then inr m
      else if decide (old `prefix_of` new) then inl EINVAL
      else
        match m !! new with
        | None => inr (move_tree old new m)
        | Some inw =>
            match typ io, typ inw with
            | TDir, TDir =>
                if has_children m new then inl ENOTEMPTY
                else inr (move_tree old new m)
            | TDir, _ => inl ENOTDIR
            | _, TDir => inl EISDIR
            | _, _ => inr (move_tree old new m)
            end
        end
  end.

(** [os.SameFile] on two entries of the model: there are no hard links, so
    two paths name the same file only when they are the same path. *)
Definition SameFile (p q : path) : bool := bool_decide (p = q).

(** [os.Rename]: Go refuses to rename onto an existing directory before it
    makes the system call, and reports every failure as a [LinkError]. *)
Definition rename_at (w : World) (oldname newname : path)
  : option error * gmap path inode :=
  let refused :=
    match lstat_at w newname with
    | Ok fi =>
        if FileInfo_IsDir fi then
          match lstat_at w oldname with
          | Err e =>
              Some (LinkError "rename" oldname newname
                      (match e with PathError _ _ e' => e' | _ => e end))
          | Ok _ =>
              if bool_decide (newname = oldname) || negb (SameFile newname oldname)
              then Some (LinkError "rename" oldname newname (SyscallErrno EEXIST))
              else None
          end
        else None
    | Err _ => None
    end in
  match refused with
  | Some e => (Some e, fs w)
  | None =>
      match faults w (CRename oldname newname) with
      | Some e => (Some (LinkError "rename" oldname newname (SyscallErrno e)), fs w)
      | None =>
          match syscall_Rename (fs w) oldname newname with
          | inl e => (Some (LinkError "rename" oldname newname (SyscallErrno e)), fs w)
          | inr m' => (None, m')
          end
      end
  end.

Definition os_Rename (oldname newname : path) : M (option error) :=
  log (CRename oldname newname);; w ← get;
  let '(e, m') := rename_at w oldname newname in
  modify (set_fs (λ _, m'));; mret e.

(** [os.Lchown(name, uid, gid)]: changes the entry [name] itself; an id of
    -1 leaves that id as it is. *)
Definition chown_inode (u g : Z) (i : inode) : inode :=
  {| typ := typ i; perm := perm i;
     uid := if u =? -1 then uid i else Z.to_N u;
     gid := if g =? -1 then gid i else Z.to_N g |}.

Definition lchown_at (w : World) (name : path) (u g : Z)
  : option error * gmap path inode :=
  match faults w (CLchown name u g) with
  | Some e => (Some (PathError "lchown" name (SyscallErrno e)), fs w)
  | None =>
      match fs w !! name with
      | None => (Some (PathError "lchown" name (SyscallErrno ENOENT)), fs w)
      | Some _ =>
          if (u <? -1) || (g <? -1)
          then (Some (PathError "lchown" name (SyscallErrno EINVAL)), fs w)
          else (None, alter (chown_inode u g) name (fs w))
      end
  end.

Definition os_Lchown (name : path) (u g : Z) : M (option error) :=
  log (CLchown name u g);; w ← get;
  let '(e, m') := lchown_at w name u g in
  modify (set_fs (λ _, m'));; mret e.

(** [os.ReadDir]: the entries of a directory, sorted by file name. *)
Fixpoint strip_prefix (p k : path) : option path :=
  match p, k with
  | [], _ => Some k
  | a :: p', b :: k' => if decide (a = b) then strip_prefix p' k' else None
  | _ :: _, [] => None
  end.

Definition child_name (p k : path) : option string :=
  match strip_prefix p k with
  | Some [n] => Some n
  | _ => None
  end.

Definition name_le (a b : string) : Prop := String.leb a b = true.
#[global] Instance name_le_dec : RelDecision name_le.
Proof. intros a b. unfold name_le. apply _. Defined.

Definition children (m : gmap path inode) (p : path) : list string :=
  merge_sort name_le (omap (child_name p) (elements (dom m))).

Definition dirents (m : gmap path inode) (p : path) : list DirEntry :=
  omap (λ n, i ← m !! Join p n;
             Some (unixDirent p n (type_bits (typ i)) None))
       (children m p).

Definition os_ReadDir (name : path) : M (list DirEntry * option error) :=
  log (CReadDir name);; w ← get;
  mret match faults w (CReadDir name) with
       | Some e => ([], Some (PathError "open" name (SyscallErrno e)))
       | None =>
           match fs w !! name with
           | None => ([], Some (PathError "open" name (SyscallErrno ENOENT)))
           | Some i =>
               if bool_decide (typ i = TDir) then (dirents (fs w) name, None)
               else ([], Some (PathError "readdirent" name (SyscallErrno ENOTDIR)))
           end
       end.

(** [DirEntry.Info()]: the root's entry carries the info [WalkDir] read;
    an entry of [ReadDir] reads it with [lstat] when asked. *)
Definition DirEntry_Info (d : DirEntry) : M (result FileInfo) :=
  match d with
  | dirInfo fi => mret (Ok fi)
  | unixDirent par n _ (Some fi) => mret (Ok fi)
  | unixDirent par n _ None => os_Lstat (Join par n)
  end.

(** Open files.  An [os.File] is the name it was opened with and its
    descriptor; [Fd()] of a closed file is -1. *)
Record File := mkFile { f_name : path; f_fd : nat }.

Definition O_RDWR : Z := 2.
Definition O_CREATE : Z := 64.
Definition LOCK_EX : Z := 2.
Definition LOCK_UN : Z := 8.

Definition File_Fd (f : File) : M Z :=
  w ← get;
  mret (if fds w !! f_fd f is Some _ then Z.of_nat (f_fd f) else -1).

Definition open_fd (name q : path) : M (result File) :=
  w ← get;
  modify (set_fds (<[next_fd w := q]>));;
  modify (set_next_fd (S (next_fd w)));;
  mret (Ok {| f_name := name; f_fd := next_fd w |}).

(** [os.OpenFile(name, flag, perm)]: follows links; with [O_CREATE] a
    missing file is created empty in an existing directory, owned by the
    process. *)
Definition os_OpenFile (name : path) (flag pm : Z) : M (result File) :=
  log (COpenFile name flag pm);; w ← get;
  let fail e := mret (Err (PathError "open" name (SyscallErrno e))) in
  match faults w (COpenFile name flag pm) with
  | Some e => fail e
  | None =>
      match chase 40 (fs w) name with
      | None => fail ELOOP
      | Some q =>
          match fs w !! q with
          | Some i =>
              match typ i with
              | TDir => if Z.land flag 3 =? 0 then open_fd name q else fail EISDIR
              | _ => open_fd name q
              end
          | None =>
              if Z.land flag O_CREATE =? 0 then fail ENOENT
              else if negb (is_dir (fs w) (parent q)) then
                fail (if fs w !! parent q is Some _ then ENOTDIR else ENOENT)
              else
                modify (set_fs (<[q := {| typ := TFile EmptyString;
                                          perm := Z.land pm ModePerm;
                                          uid := proc_uid w;
                                          gid := proc_gid w |}]>));;
                open_fd name q
          end
      end
  end.

(** [unix.Flock(fd, how)].  An exclusive request waits until no other
    descriptor holds the lock; when the call returns, the caller's
    descriptor holds it. *)
Definition unix_Flock (fd how : Z) : M (option error) :=
  log (CFlock fd how);; w ← get;
  match faults w (CFlock fd how) with
  | Some e => mret (Some (SyscallErrno e))
  | None =>
      if fd <? 0 then mret (Some (SyscallErrno EBADF)) else
      match fds w !! Z.to_nat fd with
      | None => mret (Some (SyscallErrno EBADF))
      | Some q =>
          if how =? LOCK_EX then
            modify (set_flocks (<[q := Z.to_nat fd]>));; mret None
          else if how =? LOCK_UN then
            (if bool_decide (flocks w !! q = Some (Z.to_nat fd))
             then modify (set_flocks (delete q)) else mret tt);;
            mret None
          else mret (Some (SyscallErrno EINVAL))
      end
  end.

(** [Close] of an [os.File]: a second close reports [ErrClosed]; the first one
    gives up the descriptor (and the lock it holds) even when the system
    call reports an error. *)
Definition File_Close (f : File) : M (option error) :=
  log (CClose (Z.of_nat (f_fd f)));; w ← get;
  match fds w !! f_fd f with
  | None => mret (Some (PathError "close" (f_name f) ErrClosed))
  | Some q =>
      modify (set_fds (delete (f_fd f)));;
      (if bool_decide (flocks w !! q = Some (f_fd f))
       then modify (set_flocks (delete q)) else mret tt);;
      mret match faults w (CClose (Z.of_nat (f_fd f))) with
           | Some e => Some (PathError "close" (f_name f) (SyscallErrno e))
           | None => None
           end
  end.

(** ** [filepath.WalkDir] *)

Definition WalkDirFunc : Type :=
  path → option DirEntry → option error → M (option error).

Definition is_SkipDir (e : error) : bool :=
  match e with SkipDir => true | _ => false end.

(** The recursion of [walkDir] is bounded by [fuel]; [None] means the bound
    was reached.  [walk_fuel] below is a bound that is never reached. *)
Fixpoint walkDir (fuel : nat) (path : path) (d : DirEntry)
    (walkDirFn : WalkDirFunc) (w : World) : option (option error * World) :=
  match fuel with
  | O => None
  | S fuel =>
      let '(err, w) := walkDirFn path (Some d) None w in
      if bool_decide (is_Some err) || negb (DirEntry_IsDir d) then
        match err with
        | Some e => if is_SkipDir e && DirEntry_IsDir d then Some (None, w)
                    else Some (Some e, w)
        | None => Some (None, w)
        end
      else
        let '((dirs, err), w) := os_ReadDir path w in
        let '(stop, w) :=
          match err with
          | Some err =>
              (* Second call, to report ReadDir error. *)
              let '(err, w) := walkDirFn path (Some d) (Some err) w in
              match err with
              | Some e => (Some (if is_SkipDir e && DirEntry_IsDir d
                                 then None else Some e), w)
              | None => (None, w)
              end
          | None => (None, w)
          end in
        match stop with
        | Some r => Some (r, w)
        | None =>
            (fix loop (dirs : list DirEntry) (w : World) :=
               match dirs with
               | [] => Some (None, w)
               | d1 :: dirs =>
                   let path1 := Join path (DirEntry_Name d1) in
                   match walkDir fuel path1 d1 walkDirFn w with
                   | None => None
                   | Some (Some e, w) =>
                       if is_SkipDir e then Some (None, w) else Some (Some e, w)
                   | Some (None, w) => loop dirs w
                   end
               end) dirs w
        end
  end.

(** No path of the file system is longer than [depth], so a walk never
    nests deeper. *)
Definition depth (m : gmap path inode) : nat :=
  max_list (length <$> elements (dom m)).

Definition walk_fuel (w : World) : nat := S (depth (fs w)).

Definition WalkDir (root : path) (fn : WalkDirFunc) (w : World)
  : option (option error * World) :=
  let '(r, w) := os_Lstat root w in
  r' ← match r with
       | Err err => Some (fn root None (Some err) w)
       | Ok info => walkDir (walk_fuel w) root (dirInfo info) fn w
       end;
  let '(err, w) := r' : option error * World in
  Some (match err with
        | Some SkipDir | Some SkipAll => None
        | _ => err
        end, w).

(** ** The package *)

Module fileutils.

(** [func Lrename(oldPath, newPath string) error] *)
Definition Lrename (oldPath newPath : path) : M (option error) :=
  (* Resolve the destination path if it's a symlink. *)
  r ← os_Lstat newPath;
  match r with
  | Err _ => os_Rename oldPath newPath
  | Ok fi =>
      if Z.land (Mode fi) ModeSymlink =? 0 then os_Rename oldPath newPath
      else
        r ← filepath_EvalSymlinks newPath;
        match r with
        | Err err =>
            mret (Some (as_error
                          {| msg := "failed to resolve symlinks in Lrename";
                             err := Some err |}))
        | Ok newPath => os_Rename oldPath newPath
        end
  end.

(** The closure [unlock] that [LockDir] returns; it captures [f]. *)
Definition unlock (f : File) : M (option error) :=
  fd ← File_Fd f;
  err ← unix_Flock fd LOCK_UN;
  match err with
  | Some err => File_Close f;; mret (Some err)
  | None => File_Close f
  end.

(** [func LockDir(dir string) (func() error, error)] *)
Definition LockDir (dir : path)
  : M (option (M (option error)) * option error) :=
  let lockPath := Join dir ".lock" in
  r ← os_OpenFile lockPath (Z.lor O_CREATE O_RDWR) 384;
  match r with
  | Err err => mret (None, Some err)
  | Ok f =>
      fd ← File_Fd f;
      err ← unix_Flock fd LOCK_EX;
      match err with
      | Some err => File_Close f;; mret (None, Some err)
      | None => mret (Some (unlock f), None)
      end
  end.

(** The ids are [uint32] in the source; [int(id)] is [Z.of_N id]. *)
Record ChownUIDArgs := mkUIDArgs { FromUID : N; ToUID : N }.
Record ChownGIDArgs := mkGIDArgs { FromGID : N; ToGID : N }.

Definition dquote : string := String (Ascii.ascii_of_nat 34) EmptyString.

(** The function literal handed to [filepath.WalkDir].  [WalkDir] passes a
    nil entry only together with an error, which the first test returns;
    the source would panic on a nil entry without one. *)
Definition visit (uidArgs : option ChownUIDArgs) (gidArgs : option ChownGIDArgs)
  : WalkDirFunc := λ path d err,
  match err, d with
  | Some err, _ => mret (Some err)
  | None, None => mret (Some (errorString "invalid memory address or nil pointer dereference"))
  | None, Some d =>
      r ← DirEntry_Info d;
      match r with
      | Err err => mret (Some err)
      | Ok info =>
          match Sys info with
          | None =>
              mret (Some (errorString ("failed to get raw stat for "
                                       +:+ dquote +:+ path_str path +:+ dquote)))
          | Some stat =>
              e1 ← match uidArgs with
                   | Some a =>
                       if (Uid stat =? FromUID a)%N
                       then os_Lchown path (Z.of_N (ToUID a)) (-1)
                       else mret None
                   | None => mret None
                   end;
              match e1 with
              | Some err => mret (Some (Errorf_w "failed to change ownership: " err))
              | None =>
                  e2 ← match gidArgs with
                       | Some a =>
                           if (Gid stat =? FromGID a)%N
                           then os_Lchown path (-1) (Z.of_N (ToGID a))
                           else mret None
                       | None => mret None
                       end;
                  match e2 with
                  | Some err =>
                      mret (Some (Errorf_w "failed to change group ownership: " err))
                  | None => mret None
                  end
              end
          end
      end
  end.

(** [func ChownRecursiveFrom(root string, uidArgs *ChownUIDArgs, gidArgs *ChownGIDArgs) error] *)
Definition ChownRecursiveFrom (root : path)
    (uidArgs : option ChownUIDArgs) (gidArgs : option ChownGIDArgs)
    (w : World) : option (option error * World) :=
  match uidArgs, gidArgs with
  | None, None =>
      Some (Some (errorString
        "ChownRecursiveFrom: at least one of uidArgs or gidArgs must be non-nil"), w)
  | _, _ => WalkDir root (visit uidArgs gidArgs) w
  end.

End fileutils.
Import fileutils.

(** ** Concrete worlds *)

Module Fixtures.

Definition no_faults : call → option Errno := λ _, None.

Definition file (u g : N) (data : string) : inode :=
  {| typ := TFile data; perm := 420; uid := u; gid := g |}.
Definition dir (u g : N) : inode :=
  {| typ := TDir; perm := 493; uid := u; gid := g |}.
Definition symlink (u g : N) (t : path) : inode :=
  {| typ := TSymlink t; perm := 511; uid := u; gid := g |}.

Definition world (m : gmap path inode) (f : call → option Errno) : World :=
  {| fs := m; fds := ∅; flocks := ∅; next_fd := 3%nat;
     proc_uid := 0; proc_gid := 0; faults := f; trace := [] |}.

(** /home/u (dir), /home/u/a (file), /home/u/d/b (file),
    /home/u/l -> /etc/t, /etc/t (file), /tmp/new (file),
    /home/u/dangling -> /nowhere *)
Definition tree : gmap path inode :=
  list_to_map
    [ ([], dir 0 0);
      (["home"], dir 0 0);
      (["home"; "u"], dir 1000 1000);
      (["home"; "u"; "a"], file 1000 1000 "A");
      (["home"; "u"; "d"], dir 1000 50);
      (["home"; "u"; "d"; "b"], file 2000 1000 "B");
      (["home"; "u"; "l"], symlink 1000 1000 ["etc"; "t"]);
      (["home"; "u"; "dangling"], symlink 1000 1000 ["nowhere"]);
      (["etc"], dir 0 0);
      (["etc"; "t"], file 1000 1000 "T");
      (["tmp"], dir 0 0);
      (["tmp"; "new"], file 0 0 "NEW") ].

End Fixtures.

(** * Properties *)

(** ** Shared lemmas *)

Ltac unfold_M :=
  unfold mbind, M_bind, mret, M_ret, log, modify, get in *.

(** The world after a list of calls was logged and nothing else happened. *)
Definition logged (cs : list call) (w : World) : World :=
  set_trace (λ t, t ++ cs) w.

(** The state of a world apart from the trace. *)
Definition untraced (w : World) : World := set_trace (λ _, []) w.

Lemma logged_logged cs cs' w : logged cs' (logged cs w) = logged (cs ++ cs') w.
Proof. unfold logged, set_trace. simpl. by rewrite <-app_assoc. Qed.

Lemma untraced_logged cs w : untraced (logged cs w) = untraced w.
Proof. done. Qed.

Lemma lstat_at_logged cs w p : lstat_at (logged cs w) p = lstat_at w p.
Proof. done. Qed.

Lemma os_Lstat_run name w :
  os_Lstat name w = (lstat_at w name, logged [CLstat name] w).
Proof. done. Qed.

(** The pure part of [filepath.EvalSymlinks]. *)
Definition evalsymlinks_at (w : World) (p : path) : result path :=
  match faults w (CEvalSymlinks p) with
  | Some e => Err (PathError "lstat" p (SyscallErrno e))
  | None => resolve 255 (fs w) p
  end.

Lemma filepath_EvalSymlinks_run p w :
  filepath_EvalSymlinks p w = (evalsymlinks_at w p, logged [CEvalSymlinks p] w).
Proof. done. Qed.

Definition is_symlink (t : ftype) : bool :=
  match t with TSymlink _ => true | _ => false end.

(** The test [fi.Mode()&os.ModeSymlink == 0] of the source reads the type
    of the entry: the permission bits never reach bit 27. *)
Lemma mode_symlink_bit p i :
  (Z.land (Mode (fileinfo_of p i)) ModeSymlink =? 0) = negb (is_symlink (typ i)).
Proof.
  unfold Mode, fileinfo_of; simpl.
  rewrite Z.land_lor_distr_l, <-Z.land_assoc.
  replace (Z.land ModePerm ModeSymlink) with 0 by reflexivity.
  rewrite Z.land_0_r, Z.lor_0_l.
  by destruct (typ i).
Qed.

Lemma mode_dir_bit p i :
  FileInfo_IsDir (fileinfo_of p i) = bool_decide (typ i = TDir).
Proof.
  unfold FileInfo_IsDir, Mode, fileinfo_of; simpl.
  rewrite Z.land_lor_distr_l, <-Z.land_assoc.
  replace (Z.land ModePerm ModeDir) with 0 by reflexivity.
  rewrite Z.land_0_r, Z.lor_0_l.
  by destruct (typ i).
Qed.

Lemma rename_at_logged cs w old new :
  rename_at (logged cs w) old new = rename_at w old new.
Proof. done. Qed.

Lemma os_Rename_run old new w :
  os_Rename old new w =
  ((rename_at w old new).1,
   set_fs (λ _, (rename_at w old new).2) (logged [CRename old new] w)).
Proof.
  unfold os_Rename. unfold_M.
  change (rename_at (set_trace _ w) old new) with (rename_at w old new).
  by destruct (rename_at w old new).
Qed.

(** Every error of [os.Rename] is a [LinkError]. *)
Lemma rename_at_error w old new e :
  (rename_at w old new).1 = Some e → ∃ c, e = LinkError "rename" old new c.
Proof.
  unfold rename_at.
  destruct (lstat_at w new) as [fi|]; [destruct (FileInfo_IsDir fi)|];
    repeat (case_match; simpl); intros; simplify_eq; eauto.
Qed.

(** A failed [os.Rename] leaves the file system as it was. *)
Lemma rename_at_failed w old new e :
  (rename_at w old new).1 = Some e → (rename_at w old new).2 = fs w.
Proof.
  unfold rename_at.
  destruct (lstat_at w new) as [fi|]; [destruct (FileInfo_IsDir fi)|];
    repeat (case_match; simpl); intros; simplify_eq; eauto.
Qed.

(** The outcome of [os.Rename old dst] in [w] once the calls [cs] were
    logged. *)
Definition rename_outcome (cs : list call) (old dst : path) (w : World)
  : option error * World :=
  ((rename_at w old dst).1, set_fs (λ _, (rename_at w old dst).2) (logged cs w)).

Lemma os_Rename_outcome old new w :
  os_Rename old new w = rename_outcome [CRename old new] old new w.
Proof. apply os_Rename_run. Qed.

Lemma os_Rename_after cs old new w :
  os_Rename old new (logged cs w) = rename_outcome (cs ++ [CRename old new]) old new w.
Proof.
  rewrite os_Rename_run, rename_at_logged, logged_logged. done.
Qed.

Lemma rename_outcome_plain cs old new w :
  (rename_outcome cs old new w).1 = (os_Rename old new w).1 ∧
  untraced (rename_outcome cs old new w).2 = untraced (os_Rename old new w).2 ∧
  trace (rename_outcome cs old new w).2 = trace w ++ cs.
Proof. by rewrite os_Rename_run. Qed.

(** What [Lrename] does, by the three outcomes of its two look-ups. *)
Lemma Lrename_lstat_failed old new w e :
  lstat_at w new = Err e →
  Lrename old new w = rename_outcome [CLstat new; CRename old new] old new w.
Proof.
  intros H. unfold Lrename. unfold mbind at 1. unfold M_bind.
  rewrite os_Lstat_run, H. apply os_Rename_after.
Qed.

Lemma Lrename_not_symlink old new w i :
  faults w (CLstat new) = None → fs w !! new = Some i →
  is_symlink (typ i) = false →
  Lrename old new w = rename_outcome [CLstat new; CRename old new] old new w.
Proof.
  intros Hf Hi Ht. unfold Lrename. unfold mbind at 1. unfold M_bind.
  rewrite os_Lstat_run. unfold lstat_at. rewrite Hf, Hi.
  rewrite mode_symlink_bit, Ht. simpl. apply os_Rename_after.
Qed.

Lemma Lrename_symlink old new w i t :
  faults w (CLstat new) = None → fs w !! new = Some i → typ i = TSymlink t →
  Lrename old new w =
  match evalsymlinks_at w new with
  | Err e =>
      (Some (as_error {| msg := "failed to resolve symlinks in Lrename";
                         err := Some e |}),
       logged [CLstat new; CEvalSymlinks new] w)
  | Ok R =>
      rename_outcome [CLstat new; CEvalSymlinks new; CRename old R] old R w
  end.
Proof.
  intros Hf Hi Ht. unfold Lrename. unfold mbind at 1. unfold M_bind.
  rewrite os_Lstat_run. unfold lstat_at. rewrite Hf, Hi.
  rewrite mode_symlink_bit, Ht. simpl.
  unfold mbind at 1. unfold M_bind.
  rewrite filepath_EvalSymlinks_run.
  change (evalsymlinks_at (logged _ w) new) with (evalsymlinks_at w new).
  destruct (evalsymlinks_at w new) as [R|e].
  - rewrite logged_logged. apply (os_Rename_after [CLstat new; CEvalSymlinks new]).
  - by rewrite logged_logged.
Qed.

(** *** Where the entries are after a rename *)

Lemma prefix_drop (old k : path) :
  old `prefix_of` k → k = old ++ drop (length old) k.
Proof. intros [s ->]. by rewrite drop_app_length. Qed.

Lemma rekey_inj old new k1 k2 k' :
  rekey old new k1 = Some k' → rekey old new k2 = Some k' → k1 = k2.
Proof.
  unfold rekey.
  destruct (decide (old `prefix_of` k1)) as [P1|P1];
    [|destruct (decide (new `prefix_of` k1)) as [Q1|Q1]; [done|]];
    (destruct (decide (old `prefix_of` k2)) as [P2|P2];
     [|destruct (decide (new `prefix_of` k2)) as [Q2|Q2]; [done|]]);
    intros E1 E2; injection E1 as E1; injection E2 as E2; subst k'.
  - apply app_inv_head in E2.
    rewrite (prefix_drop old k1), (prefix_drop old k2) by done. by rewrite E2.
  - exfalso. eapply Q2. rewrite E2. by apply prefix_app_r.
  - exfalso. eapply Q1. rewrite <-E2. by apply prefix_app_r.
  - done.
Qed.

Definition rekey_entry (old new : path) (kv : path * inode) : option (path * inode) :=
  (λ k', (k', kv.2)) <$> rekey old new kv.1.

Lemma elem_of_rekeyed old new (l : list (path * inode)) k' v :
  (k', v) ∈ omap (rekey_entry old new) l ↔
  ∃ k, (k, v) ∈ l ∧ rekey old new k = Some k'.
Proof.
  rewrite list_elem_of_omap. split.
  - intros [[k v0] [Hin Hf]]. unfold rekey_entry in Hf. simpl in Hf.
    destruct (rekey old new k) eqn:E; simplify_eq/=. eauto.
  - intros [k [Hin Hk]]. exists (k, v). split; [done|].
    unfold rekey_entry. simpl. by rewrite Hk.
Qed.

Lemma NoDup_rekeyed old new (l : list (path * inode)) :
  NoDup l.*1 → NoDup (omap (rekey_entry old new) l).*1.
Proof.
  induction l as [|[k v] l IH]; simpl; [constructor|].
  rewrite NoDup_cons. intros [Hk Hl].
  unfold rekey_entry at 1. simpl.
  destruct (rekey old new k) as [k'|] eqn:E; simpl; [|by apply IH].
  apply NoDup_cons. split; [|by apply IH].
  intros Hin. apply list_elem_of_fmap in Hin as [[k'' v'] [-> Hin]].
  apply elem_of_rekeyed in Hin as [k2 [Hin Hk2]]. simpl in Hk2.
  assert (k2 = k) as -> by (eapply rekey_inj; eauto).
  apply Hk. apply list_elem_of_fmap. by exists (k, v').
Qed.

Lemma lookup_move_tree old new m k' v :
  move_tree old new m !! k' = Some v ↔
  ∃ k, m !! k = Some v ∧ rekey old new k = Some k'.
Proof.
  unfold move_tree.
  change (omap _ (map_to_list m)) with (omap (rekey_entry old new) (map_to_list m)).
  rewrite <-elem_of_list_to_map
    by (apply NoDup_rekeyed, NoDup_fst_map_to_list).
  rewrite elem_of_rekeyed.
  by setoid_rewrite elem_of_map_to_list.
Qed.

(** The destination holds what the source held. *)
Lemma move_tree_dst old new m : move_tree old new m !! new = m !! old.
Proof.
  destruct (m !! old) as [v|] eqn:E.
  - apply lookup_move_tree. exists old. split; [done|].
    unfold rekey. rewrite decide_True by done.
    by rewrite drop_all, app_nil_r.
  - apply eq_None_not_Some. intros [v Hv].
    apply lookup_move_tree in Hv as [k [Hk Hr]].
    unfold rekey in Hr.
    destruct (decide (old `prefix_of` k)) as [P|P];
      [|destruct (decide (new `prefix_of` k)) as [Q|Q]; [done|]]; simplify_eq.
    + assert (drop (length old) k = []) as Hd.
      { apply (app_inv_head new). by rewrite app_nil_r. }
      rewrite (prefix_drop old k), Hd, app_nil_r in Hk by done. congruence.
    + by destruct Q.
Qed.

(** An entry neither below the source nor below the destination stays. *)
Lemma move_tree_other old new m k :
  ¬ old `prefix_of` k → ¬ new `prefix_of` k →
  move_tree old new m !! k = m !! k.
Proof.
  intros Ho Hn. apply option_eq. intros v. rewrite lookup_move_tree. split.
  - intros [k0 [Hk0 Hr]]. unfold rekey in Hr.
    destruct (decide (old `prefix_of` k0)) as [P|P];
      [|destruct (decide (new `prefix_of` k0)) as [Q|Q]; [done|]]; simplify_eq;
      [|done].
    exfalso. by eapply Hn, prefix_app_r.
  - intros Hk. exists k. split; [done|]. unfold rekey.
    by rewrite !decide_False.
Qed.

(** An entry below the source is gone from its old place, unless the
    destination lies above it. *)
Lemma move_tree_moved old new m k :
  old `prefix_of` k → ¬ new `prefix_of` k →
  move_tree old new m !! k = None.
Proof.
  intros Ho Hn. apply eq_None_not_Some. intros [v Hv].
  apply lookup_move_tree in Hv as [k0 [Hk0 Hr]]. unfold rekey in Hr.
  destruct (decide (old `prefix_of` k0)) as [P|P];
    [|destruct (decide (new `prefix_of` k0)) as [Q|Q]; [done|]]; simplify_eq.
  - by eapply Hn, prefix_app_r.
  - done.
Qed.

(** *** Well-formed file systems: every entry but the root lies in a
    directory. *)

Definition wf (m : gmap path inode) : bool :=
  forallb (λ k, bool_decide (k = []) || is_dir m (parent k)) (elements (dom m)).

Lemma wf_parent m k :
  wf m = true → is_Some (m !! k) → k ≠ [] → is_dir m (parent k) = true.
Proof.
  unfold wf. rewrite forallb_forall. intros Hwf Hk Hne.
  specialize (Hwf k). rewrite <-list_elem_of_In, elem_of_elements, elem_of_dom in Hwf.
  specialize (Hwf Hk). apply orb_true_iff in Hwf as [H|H]; [|done].
  by apply bool_decide_eq_true in H.
Qed.

Lemma parent_snoc (p : path) x : parent (p ++ [x]) = p.
Proof.
  unfold parent. rewrite length_app. simpl.
  replace (length p + 1 - 1)%nat with (length p) by lia.
  by rewrite take_app_length.
Qed.

Lemma is_dir_Some m p : is_dir m p = true → ∃ i, m !! p = Some i ∧ typ i = TDir.
Proof.
  unfold is_dir. destruct (m !! p) as [i|]; [|done].
  intros H%bool_decide_eq_true. eauto.
Qed.

Lemma wf_ancestor m p s :
  wf m = true → is_Some (m !! (p ++ s)) → s ≠ [] → is_dir m p = true.
Proof.
  intros Hwf. induction s as [|x s IH] using rev_ind; [done|].
  intros Hk _. rewrite app_assoc in Hk.
  pose proof (wf_parent m _ Hwf Hk) as Hp.
  rewrite parent_snoc in Hp.
  assert (is_dir m (p ++ s) = true) as Hd.
  { apply Hp. intros E. by apply app_eq_nil in E as [_ ?]. }
  destruct s as [|y s]; [by rewrite app_nil_r in Hd|].
  apply IH; [|done]. apply is_dir_Some in Hd as [i [-> _]]. eauto.
Qed.

Lemma has_children_true m p k :
  is_Some (m !! k) → p ≠ k → p `prefix_of` k → has_children m p = true.
Proof.
  intros Hk Hne Hp. apply bool_decide_eq_true, Exists_exists.
  exists k. by rewrite elem_of_elements, elem_of_dom.
Qed.

(** The end of a resolved chain exists and is no link. *)
Lemma resolve_end n m p q :
  resolve n m p = Ok q → ∃ i, m !! q = Some i ∧ is_symlink (typ i) = false.
Proof.
  revert p. induction n as [|n IH]; intros p; simpl;
    destruct (m !! p) as [i|] eqn:E; try done;
    destruct (typ i) eqn:T; try done; intros; simplify_eq;
    try (exists i; by rewrite E, T); eauto.
Qed.

(** What a successful [os.Rename] did. *)
Lemma rename_at_succeeded w old dst :
  (rename_at w old dst).1 = None →
  (old = dst ∧ (rename_at w old dst).2 = fs w) ∨
  ((rename_at w old dst).2 = move_tree old dst (fs w) ∧
   ∀ i, fs w !! dst = Some i → typ i = TDir → has_children (fs w) dst = false).
Proof.
  unfold rename_at.
  match goal with |- context [match ?r with Some e => (Some e, fs w) | None => _ end] =>
    destruct r; [done|] end.
  destruct (faults w (CRename old dst)); [done|].
  unfold syscall_Rename.
  destruct (fs w !! old) as [io|]; [|done].
  destruct (negb (is_dir (fs w) (parent dst))); [done|].
  destruct (decide (old = dst)) as [->|Hne]; [by left|].
  destruct (decide (old `prefix_of` dst)); [done|].
  destruct (fs w !! dst) as [inw|] eqn:E.
  - destruct (typ io) eqn:To, (typ inw) eqn:Tn; simpl; try done;
      try (intros _; right; split; [done|]; intros; simplify_eq; congruence).
    destruct (has_children (fs w) dst) eqn:Hc; [done|].
    intros _. right. split; [done|]. intros; done.
  - intros _. right. split; [done|]. intros; simplify_eq.
Qed.

Lemma lstat_at_error w p e :
  lstat_at w p = Err e → ∃ c, e = PathError "lstat" p c.
Proof.
  unfold lstat_at. destruct (faults w (CLstat p)); [|destruct (fs w !! p)];
    intros; simplify_eq; eauto.
Qed.

(** ** Lrename *)

Section Lrename_properties.

Import Fixtures.

Definition src_new : path := ["tmp"; "new"].
Definition dst_a : path := ["home"; "u"; "a"].
Definition dst_link : path := ["home"; "u"; "l"].
Definition dst_dangling : path := ["home"; "u"; "dangling"].
Definition dst_absent : path := ["home"; "u"; "fresh"].

(** /home/u cannot be searched by the caller: looking at /home/u/a and
    renaming onto it are both denied. *)
Definition denied (c : call) : option Errno :=
  if bool_decide (c = CLstat dst_a) || bool_decide (c = CRename src_new dst_a)
  then Some EACCES else None.

(** Only the look at /home/u/a fails. *)
Definition stat_fails (c : call) : option Errno :=
  if bool_decide (c = CLstat dst_a) then Some EIO else None.

(** C1, as the code has it: when the lstat of the destination fails, with
    whatever error, Lrename drops that error and makes the plain rename of
    the source onto the destination; it returns what the rename returns,
    never the stat error. *)
Theorem Lrename_stat_error_renames w old new e :
  lstat_at w new = Err e →
  Lrename old new w = rename_outcome [CLstat new; CRename old new] old new w
  ∧ (Lrename old new w).1 = (os_Rename old new w).1
  ∧ untraced (Lrename old new w).2 = untraced (os_Rename old new w).2
  ∧ (Lrename old new w).1 ≠ Some e.
Proof.
  intros H. rewrite (Lrename_lstat_failed _ _ _ _ H).
  destruct (rename_outcome_plain [CLstat new; CRename old new] old new w)
    as (H1 & H2 & _).
  repeat split; try done.
  simpl. intros Hr.
  apply rename_at_error in Hr as [c ->].
  by apply lstat_at_error in H as [c' ?].
Qed.

Lemma Lrename_stat_error_renames_witness :
  let w := world tree denied in
  Lrename src_new dst_a w
    = rename_outcome [CLstat dst_a; CRename src_new dst_a] src_new dst_a w
  ∧ (Lrename src_new dst_a w).1 = (os_Rename src_new dst_a w).1
  ∧ untraced (Lrename src_new dst_a w).2 = untraced (os_Rename src_new dst_a w).2
  ∧ (Lrename src_new dst_a w).1
      ≠ Some (PathError "lstat" dst_a (SyscallErrno EACCES)).
Proof.
  apply (Lrename_stat_error_renames (world tree denied) src_new dst_a
           (PathError "lstat" dst_a (SyscallErrno EACCES))).
  reflexivity.
Defined.

(** C1 as stated fails.  With /home/u not searchable, the lstat of
    /home/u/a fails with EACCES; Lrename goes on to call os.Rename and
    returns the rename's LinkError, not the stat error.  And when only the
    lstat fails, the rename is carried out: the destination is replaced. *)
Lemma Lrename_stat_error_counterexample :
  (let w := world tree denied in
   let stat_err := PathError "lstat" dst_a (SyscallErrno EACCES) in
   lstat_at w dst_a = Err stat_err
   ∧ Lrename src_new dst_a w
       = (Some (LinkError "rename" src_new dst_a (SyscallErrno EACCES)),
          logged [CLstat dst_a; CRename src_new dst_a] w)
   ∧ (Lrename src_new dst_a w).1 ≠ Some stat_err)
  ∧
  (let w := world tree stat_fails in
   lstat_at w dst_a = Err (PathError "lstat" dst_a (SyscallErrno EIO))
   ∧ (Lrename src_new dst_a w).1 = None
   ∧ fs (Lrename src_new dst_a w).2 !! dst_a = Some (file 0 0 "NEW")
   ∧ fs (Lrename src_new dst_a w).2 !! src_new = None
   ∧ trace (Lrename src_new dst_a w).2 = [CLstat dst_a; CRename src_new dst_a]).
Proof.
  split; cbv zeta.
  - split; [reflexivity|]. split; [reflexivity|]. discriminate.
  - repeat split; vm_compute; reflexivity.
Qed.

(** C2. When the destination is a symbolic link and resolving it fails,
    Lrename returns a SymlinkResolutionError with the fixed message that
    wraps the cause, makes no rename call, and leaves the file system as
    it was (the source and the link included). *)
Theorem Lrename_unresolvable_symlink w old new i t e :
  faults w (CLstat new) = None → fs w !! new = Some i → typ i = TSymlink t →
  evalsymlinks_at w new = Err e →
  let sre := {| msg := "failed to resolve symlinks in Lrename"; err := Some e |} in
  Lrename old new w
    = (Some (as_error sre), logged [CLstat new; CEvalSymlinks new] w)
  ∧ SRE.Unwrap sre = Some e
  ∧ errors_Is (as_error sre) (as_error (mkSRE EmptyString None)) = true
  ∧ fs (Lrename old new w).2 = fs w
  ∧ fs (Lrename old new w).2 !! old = fs w !! old
  ∧ fs (Lrename old new w).2 !! new = Some i
  ∧ trace (Lrename old new w).2 = trace w ++ [CLstat new; CEvalSymlinks new].
Proof.
  intros Hf Hi Ht He sre.
  rewrite (Lrename_symlink _ _ _ _ _ Hf Hi Ht), He. simpl.
  repeat split; done.
Qed.

Lemma Lrename_unresolvable_symlink_witness :
  let w := world tree no_faults in
  let sre := {| msg := "failed to resolve symlinks in Lrename";
                err := Some (PathError "lstat" ["nowhere"] (SyscallErrno ENOENT)) |} in
  Lrename src_new dst_dangling w
    = (Some (as_error sre), logged [CLstat dst_dangling; CEvalSymlinks dst_dangling] w)
  ∧ SRE.Unwrap sre = Some (PathError "lstat" ["nowhere"] (SyscallErrno ENOENT))
  ∧ errors_Is (as_error sre) (as_error (mkSRE EmptyString None)) = true
  ∧ fs (Lrename src_new dst_dangling w).2 = fs w
  ∧ fs (Lrename src_new dst_dangling w).2 !! src_new = fs w !! src_new
  ∧ fs (Lrename src_new dst_dangling w).2 !! dst_dangling
      = Some (symlink 1000 1000 ["nowhere"])
  ∧ trace (Lrename src_new dst_dangling w).2
      = trace w ++ [CLstat dst_dangling; CEvalSymlinks dst_dangling].
Proof.
  apply (Lrename_unresolvable_symlink (world tree no_faults) src_new dst_dangling
           (symlink 1000 1000 ["nowhere"]) ["nowhere"]
           (PathError "lstat" ["nowhere"] (SyscallErrno ENOENT)));
    reflexivity.
Defined.

(** C3. (1) When the destination does not exist or is no symbolic link,
    Lrename is the plain os.Rename of the source onto the destination:
    same result, same state.  (2) When the destination is a symbolic link
    that resolves to R, Lrename is os.Rename of the source onto R; when
    that rename succeeds (in a well-formed file system) R holds what the
    source held and the link's path never receives the source: the link
    is untouched, or, had it been inside the renamed source, it moved
    away with it. *)
Theorem Lrename_renames_resolved_destination w old new :
  (faults w (CLstat new) = None →
   (fs w !! new = None ∨ ∃ i, fs w !! new = Some i ∧ is_symlink (typ i) = false) →
   Lrename old new w = rename_outcome [CLstat new; CRename old new] old new w
   ∧ (Lrename old new w).1 = (os_Rename old new w).1
   ∧ untraced (Lrename old new w).2 = untraced (os_Rename old new w).2)
  ∧
  (∀ i t R,
     faults w (CLstat new) = None → fs w !! new = Some i → typ i = TSymlink t →
     evalsymlinks_at w new = Ok R →
     let out := Lrename old new w in
     out = rename_outcome [CLstat new; CEvalSymlinks new; CRename old R] old R w
     ∧ out.1 = (os_Rename old R w).1
     ∧ untraced out.2 = untraced (os_Rename old R w).2
     ∧ (out.1 = None → wf (fs w) = true →
        fs out.2 !! R = fs w !! old
        ∧ (fs out.2 !! new = Some i
           ∨ (old `prefix_of` new ∧ fs out.2 !! new = None)))).
Proof.
  split.
  - intros Hf Hcase.
    assert (Lrename old new w
            = rename_outcome [CLstat new; CRename old new] old new w) as ->.
    { destruct Hcase as [Hn|[i [Hi Ht]]].
      - apply (Lrename_lstat_failed _ _ _ (PathError "lstat" new (SyscallErrno ENOENT))).
        unfold lstat_at. by rewrite Hf, Hn.
      - by eapply Lrename_not_symlink. }
    split; [done|]. by rewrite os_Rename_run.
  - intros i t R Hf Hi Ht He out. subst out.
    rewrite (Lrename_symlink _ _ _ _ _ Hf Hi Ht), He.
    split; [done|]. rewrite os_Rename_run.
    split; [done|]. split; [done|].
    simpl. intros Hok Hwf.
    assert (∃ iR, fs w !! R = Some iR ∧ is_symlink (typ iR) = false)
      as [iR [HR HtR]].
    { unfold evalsymlinks_at in He.
      destruct (faults w (CEvalSymlinks new)); [done|]. by eapply resolve_end. }
    assert (R ≠ new) as Hne.
    { intros ->. rewrite Hi in HR. simplify_eq. by rewrite Ht in HtR. }
    destruct (rename_at_succeeded _ _ _ Hok) as [[-> ->]|[-> Hdir]].
    { split; [done|]. by left. }
    split; [apply move_tree_dst|].
    assert (¬ R `prefix_of` new) as HnR.
    { intros [s Hs].
      assert (s ≠ []) by (intros ->; rewrite app_nil_r in Hs; done).
      assert (is_dir (fs w) R = true) as Hd.
      { apply (wf_ancestor _ _ s); [done| |done]. rewrite <-Hs, Hi. eauto. }
      apply is_dir_Some in Hd as [iR' [HR' Hty]].
      specialize (Hdir _ HR' Hty).
      rewrite (has_children_true _ R new) in Hdir; [done| |done|by exists s].
      rewrite Hi. eauto. }
    destruct (decide (old `prefix_of` new)) as [Ho|Ho].
    + right. split; [done|]. by apply move_tree_moved.
    + left. rewrite move_tree_other by done. done.
Qed.

Lemma Lrename_renames_resolved_destination_witness :
  let w := world tree no_faults in
  (Lrename src_new dst_absent w
     = rename_outcome [CLstat dst_absent; CRename src_new dst_absent]
         src_new dst_absent w
   ∧ (Lrename src_new dst_absent w).1 = (os_Rename src_new dst_absent w).1
   ∧ untraced (Lrename src_new dst_absent w).2
       = untraced (os_Rename src_new dst_absent w).2)
  ∧
  (let out := Lrename src_new dst_link w in
   out = rename_outcome
           [CLstat dst_link; CEvalSymlinks dst_link; CRename src_new ["etc"; "t"]]
           src_new ["etc"; "t"] w
   ∧ out.1 = (os_Rename src_new ["etc"; "t"] w).1
   ∧ untraced out.2 = untraced (os_Rename src_new ["etc"; "t"] w).2
   ∧ fs out.2 !! ["etc"; "t"] = fs w !! src_new
   ∧ (fs out.2 !! dst_link = Some (symlink 1000 1000 ["etc"; "t"])
      ∨ (src_new `prefix_of` dst_link ∧ fs out.2 !! dst_link = None))).
Proof.
  intros w. split.
  - apply (Lrename_renames_resolved_destination w src_new dst_absent);
      [reflexivity | left; reflexivity].
  - destruct (Lrename_renames_resolved_destination w src_new dst_link) as [_ H].
    destruct (H (symlink 1000 1000 ["etc"; "t"]) ["etc"; "t"] ["etc"; "t"])
      as (H1 & H2 & H3 & H4); try reflexivity.
    destruct H4 as [H4 H5]; try reflexivity.
    repeat split; assumption.
Defined.

End Lrename_properties.

(** ** SymlinkResolutionError *)

Section SymlinkResolutionError_properties.

Definition zero_SRE : SymlinkResolutionError :=
  {| msg := EmptyString; err := None |}.

Lemma go_eq_zero_SRE target :
  go_eq target (as_error zero_SRE) = true ↔ target = as_error zero_SRE.
Proof.
  destruct target as [| | | | |m c| | |]; simpl; try (split; discriminate).
  destruct c as [c|], m as [|a m]; simpl; split; try done.
Qed.

Lemma errors_Is_wrapError m c target :
  errors_Is c target = true → errors_Is (wrapError m c) target = true.
Proof. simpl. intros ->. apply orb_true_r. Qed.

(** C8, as the code has it: the Is method of a SymlinkResolutionError does
    not look at its receiver and accepts exactly one target, the zero
    value SymlinkResolutionError{}; so errors.Is of any such error (also
    one wrapped by fmt.Errorf) against SymlinkResolutionError{} succeeds
    whatever the message and the cause; and Unwrap gives the cause. *)
Theorem SymlinkResolutionError_kind_check (e : SymlinkResolutionError) :
  (∀ target, SRE.Is e target = true ↔ target = as_error zero_SRE)
  ∧ errors_Is (as_error e) (as_error zero_SRE) = true
  ∧ (∀ prefix, errors_Is (Errorf_w prefix (as_error e)) (as_error zero_SRE) = true)
  ∧ SRE.Unwrap e = err e
  ∧ Unwrap (as_error e) = err e.
Proof.
  assert (errors_Is (as_error e) (as_error zero_SRE) = true) as Hk.
  { destruct e as [m c]. unfold as_error. simpl.
    rewrite orb_true_r. done. }
  split; [intros target; apply go_eq_zero_SRE|].
  split; [done|]. split; [|done].
  intros prefix. by apply errors_Is_wrapError.
Qed.

(** C8 as stated fails: two errors that Lrename returns for two different
    unresolvable links are not accepted by each other's kind check. *)
Lemma SymlinkResolutionError_kind_check_counterexample :
  let e1 := {| msg := "failed to resolve symlinks in Lrename";
               err := Some (PathError "lstat" ["nowhere"] (SyscallErrno ENOENT)) |} in
  let e2 := {| msg := "failed to resolve symlinks in Lrename";
               err := Some (PathError "lstat" ["etc"; "t"] (SyscallErrno EACCES)) |} in
  SRE.Is e1 (as_error e2) = false
  ∧ errors_Is (as_error e1) (as_error e2) = false
  ∧ errors_Is (as_error e2) (as_error e1) = false.
Proof. repeat split. Qed.

End SymlinkResolutionError_properties.

(** ** LockDir *)

Section LockDir_properties.

Import Fixtures.

(** The file object [LockDir] opens in [w]. *)
Definition lock_file (dir : path) (w : World) : File :=
  {| f_name := Join dir ".lock"; f_fd := next_fd w |}.

Definition empty_lock_file (w : World) : inode :=
  {| typ := TFile EmptyString; perm := Z.land 384 ModePerm;
     uid := proc_uid w; gid := proc_gid w |}.

(** What the release function returns: the error of the unlock step if it
    has one, else the error of the close step, else nil. *)
Definition unlock_result (f : File) (w : World) : option error :=
  match faults w (CFlock (Z.of_nat (f_fd f)) LOCK_UN) with
  | Some e => Some (SyscallErrno e)
  | None =>
      match faults w (CClose (Z.of_nat (f_fd f))) with
      | Some e => Some (PathError "close" (f_name f) (SyscallErrno e))
      | None => None
      end
  end.

(** The world after a release: both calls were made, in this order; the
    descriptor is gone and so is the lock it held. *)
Definition released (f : File) (q : path) (w : World) : World :=
  set_flocks (λ l, if bool_decide (flocks w !! q = Some (f_fd f))
                   then delete q l else l)
    (set_fds (delete (f_fd f))
       (logged [CFlock (Z.of_nat (f_fd f)) LOCK_UN; CClose (Z.of_nat (f_fd f))] w)).

Lemma unlock_run f q w :
  fds w !! f_fd f = Some q →
  unlock f w = (unlock_result f w, released f q w).
Proof.
  intros Hq. unfold unlock, unlock_result, released, File_Fd, unix_Flock, File_Close.
  unfold_M. simpl. rewrite Hq. simpl.
  destruct (faults w (CFlock (Z.of_nat (f_fd f)) LOCK_UN)) as [e|] eqn:Ef; simpl.
  - rewrite Hq. simpl. unfold logged, set_trace, set_fds, set_flocks. simpl.
    rewrite <-app_assoc. simpl.
    by destruct (bool_decide (flocks w !! q = Some (f_fd f))).
  - assert ((Z.of_nat (f_fd f) <? 0) = false) as -> by (apply Z.ltb_ge; lia).
    rewrite Nat2Z.id, Hq. simpl.
    destruct (bool_decide (flocks w !! q = Some (f_fd f))) eqn:Eh; simpl;
      rewrite Hq; simpl.
    + rewrite lookup_delete_eq.
      rewrite bool_decide_eq_false_2 by done. simpl.
      unfold logged, set_trace, set_fds, set_flocks. simpl.
      rewrite <-app_assoc. simpl.
      by destruct (faults w (CClose (Z.of_nat (f_fd f)))).
    + rewrite Eh. simpl.
      unfold logged, set_trace, set_fds, set_flocks. simpl.
      rewrite <-app_assoc. simpl.
      by destruct (faults w (CClose (Z.of_nat (f_fd f)))).
Qed.

Lemma LockDir_success dir w u w1 :
  LockDir dir w = ((Some u, None), w1) →
  u = unlock (lock_file dir w) ∧
  ∃ q, chase 40 (fs w) (Join dir ".lock") = Some q
     ∧ fds w1 = <[next_fd w := q]> (fds w)
     ∧ flocks w1 = <[q := next_fd w]> (flocks w)
     ∧ (fs w1 = fs w ∧ is_Some (fs w !! q)
        ∨ fs w !! q = None ∧ fs w1 = <[q := empty_lock_file w]> (fs w))
     ∧ trace w1 = trace w ++ [COpenFile (Join dir ".lock") (Z.lor O_CREATE O_RDWR) 384;
                              CFlock (Z.of_nat (next_fd w)) LOCK_EX].
Proof.
  unfold LockDir, os_OpenFile, open_fd, File_Fd, unix_Flock, File_Close.
  unfold_M. simpl.
  destruct (faults w (COpenFile (Join dir ".lock") (Z.lor O_CREATE O_RDWR) 384));
    [intros [=]|].
  destruct (chase 40 (fs w) (Join dir ".lock")) as [q|] eqn:Hc; [|intros [=]].
  assert ((Z.of_nat (next_fd w) <? 0) = false) as Hlt by (apply Z.ltb_ge; lia).
  destruct (fs w !! q) as [i|] eqn:Hq.
  - destruct (typ i); simpl; try (intros [=]; fail);
      rewrite lookup_insert_eq; simpl;
      (destruct (faults w (CFlock (Z.of_nat (next_fd w)) LOCK_EX)); simpl;
       [rewrite lookup_insert_eq; simpl; case_bool_decide; intros [=]|]);
      rewrite Hlt, Nat2Z.id, lookup_insert_eq; simpl;
      intros [= <- <-]; simpl;
      (split; [done|]); exists q; rewrite <-app_assoc; eauto 10.
  - destruct (negb (is_dir (fs w) (parent q))); simpl; [intros [=]|].
    rewrite lookup_insert_eq; simpl.
    destruct (faults w (CFlock (Z.of_nat (next_fd w)) LOCK_EX)); simpl;
      [rewrite lookup_insert_eq; simpl; case_bool_decide; intros [=]|].
    rewrite Hlt, Nat2Z.id, lookup_insert_eq; simpl.
    intros [= <- <-]; simpl.
    split; [done|]. exists q. rewrite <-app_assoc. eauto 10.
Qed.

(** A flock that cannot be released: the unlock of descriptor 3 fails. *)
Definition unlock_fails (c : call) : option Errno :=
  if bool_decide (c = CFlock 3 LOCK_UN) then Some ENOLCK else None.

Definition home_u : path := ["home"; "u"].

(** C7. After a successful LockDir the directory holds a file named .lock
    (created empty if it was absent, nothing else touched), the descriptor
    holds the lock, and the returned function, run in any later state in
    which the descriptor is still open, calls Flock(LOCK_UN) and then
    Close, in this order; it returns the unlock error if there is one,
    else the close error, else nil; it removes no file. *)
Theorem LockDir_lock_file_and_release dir w u w1 :
  LockDir dir w = ((Some u, None), w1) →
  let lockPath := Join dir ".lock" in
  let f := lock_file dir w in
  let fd := Z.of_nat (f_fd f) in
  is_Some (fs w1 !! lockPath)
  ∧ (fs w !! lockPath = None → fs w1 = <[lockPath := empty_lock_file w]> (fs w))
  ∧ fs w ⊆ fs w1
  ∧ (∃ q, fds w1 !! f_fd f = Some q ∧ flocks w1 !! q = Some (f_fd f))
  ∧ ∀ w2 q, fds w2 !! f_fd f = Some q →
      u w2 = (unlock_result f w2, released f q w2)
      ∧ trace (u w2).2 = trace w2 ++ [CFlock fd LOCK_UN; CClose fd]
      ∧ fs (u w2).2 = fs w2
      ∧ fds (u w2).2 !! f_fd f = None
      ∧ flocks (u w2).2 !! q ≠ Some (f_fd f)
      ∧ (faults w2 (CFlock fd LOCK_UN) = None →
         faults w2 (CClose fd) = None → (u w2).1 = None).
Proof.
  intros H lockPath f fd. subst lockPath f fd.
  apply LockDir_success in H as (-> & q & Hc & Hfds & Hfl & Hfs & Htr).
  set (lockPath := Join dir ".lock") in *.
  assert (fs w !! lockPath = None → q = lockPath) as Habs.
  { intros Hn. rewrite (chase_absent _ _ _ Hn) in Hc. congruence. }
  split; [|split; [|split; [|split]]].
  - destruct (fs w !! lockPath) as [i|] eqn:E.
    + destruct Hfs as [[-> _]|[Hq ->]]; [by rewrite E|].
      rewrite lookup_insert_ne; [by rewrite E|]. intros ->. congruence.
    + rewrite (Habs eq_refl) in Hfs.
      destruct Hfs as [[-> Hs]|[_ ->]]; [done|]. by rewrite lookup_insert_eq.
  - intros Hn. rewrite (Habs Hn) in Hfs.
    destruct Hfs as [[_ Hs]|[_ ->]]; [|done].
    rewrite Hn in Hs. by destruct Hs.
  - destruct Hfs as [[-> _]|[Hq ->]]; [done|]. by apply insert_subseteq.
  - exists q. rewrite Hfds, Hfl. by rewrite !lookup_insert_eq.
  - intros w2 q' Hq'. rewrite (unlock_run _ _ _ Hq'). simpl.
    split; [done|]. split; [done|]. split; [done|].
    split; [apply lookup_delete_eq|]. split.
    + case_bool_decide as Hh; [by rewrite lookup_delete_eq|done].
    + unfold unlock_result. simpl. by intros -> ->.
Qed.

Lemma LockDir_lock_file_and_release_witness :
  let w := world tree no_faults in
  let w1 := (LockDir home_u w).2 in
  let lockPath := Join home_u ".lock" in
  let f := lock_file home_u w in
  let fd := Z.of_nat (f_fd f) in
  is_Some (fs w1 !! lockPath)
  ∧ (fs w !! lockPath = None → fs w1 = <[lockPath := empty_lock_file w]> (fs w))
  ∧ fs w ⊆ fs w1
  ∧ (∃ q, fds w1 !! f_fd f = Some q ∧ flocks w1 !! q = Some (f_fd f))
  ∧ ∀ w2 q, fds w2 !! f_fd f = Some q →
      unlock f w2 = (unlock_result f w2, released f q w2)
      ∧ trace (unlock f w2).2 = trace w2 ++ [CFlock fd LOCK_UN; CClose fd]
      ∧ fs (unlock f w2).2 = fs w2
      ∧ fds (unlock f w2).2 !! f_fd f = None
      ∧ flocks (unlock f w2).2 !! q ≠ Some (f_fd f)
      ∧ (faults w2 (CFlock fd LOCK_UN) = None →
         faults w2 (CClose fd) = None → (unlock f w2).1 = None).
Proof.
  apply (LockDir_lock_file_and_release home_u (world tree no_faults)
           (unlock (lock_file home_u (world tree no_faults)))
           (LockDir home_u (world tree no_faults)).2).
  vm_compute; reflexivity.
Defined.

(** C10. When the unlock step of the release function fails, the function
    still calls Close on the descriptor, after the failed Flock, and then
    returns the unlock error; afterwards the descriptor is closed, whether
    or not Close reported an error of its own. *)
Theorem LockDir_release_closes_on_unlock_error dir w u w1 w2 q e :
  LockDir dir w = ((Some u, None), w1) →
  let f := lock_file dir w in
  let fd := Z.of_nat (f_fd f) in
  fds w2 !! f_fd f = Some q →
  faults w2 (CFlock fd LOCK_UN) = Some e →
  (u w2).1 = Some (SyscallErrno e)
  ∧ trace (u w2).2 = trace w2 ++ [CFlock fd LOCK_UN; CClose fd]
  ∧ fds (u w2).2 !! f_fd f = None
  ∧ fds (u w2).2 = delete (f_fd f) (fds w2).
Proof.
  intros H f fd Hq He. subst f fd.
  apply LockDir_success in H as (-> & _).
  rewrite (unlock_run _ _ _ Hq). simpl.
  unfold unlock_result. simpl in *. rewrite He.
  repeat split. apply lookup_delete_eq.
Qed.

Lemma LockDir_release_closes_on_unlock_error_witness :
  let w := world tree unlock_fails in
  let u := unlock (lock_file home_u w) in
  let w1 := (LockDir home_u w).2 in
  (u w1).1 = Some (SyscallErrno ENOLCK)
  ∧ trace (u w1).2 = trace w1 ++ [CFlock 3 LOCK_UN; CClose 3]
  ∧ fds (u w1).2 !! 3%nat = None
  ∧ fds (u w1).2 = delete 3%nat (fds w1).
Proof.
  apply (LockDir_release_closes_on_unlock_error home_u (world tree unlock_fails)
           (unlock (lock_file home_u (world tree unlock_fails)))
           (LockDir home_u (world tree unlock_fails)).2
           (LockDir home_u (world tree unlock_fails)).2
           (Join home_u ".lock") ENOLCK); vm_compute; reflexivity.
Defined.

End LockDir_properties.

(** ** ChownRecursiveFrom *)

(** *** One visit *)

(** What [d.Info()] returns in [w], and the calls it makes. *)
Definition entry_info (w : World) (d : DirEntry) : result FileInfo :=
  match d with
  | dirInfo fi => Ok fi
  | unixDirent _ _ _ (Some fi) => Ok fi
  | unixDirent par n _ None => lstat_at w (Join par n)
  end.

Definition info_calls (d : DirEntry) : list call :=
  match d with
  | unixDirent par n _ None => [CLstat (Join par n)]
  | _ => []
  end.

Lemma logged_nil w : logged [] w = w.
Proof. destruct w. unfold logged, set_trace. simpl. by rewrite app_nil_r. Qed.

Lemma DirEntry_Info_run d w :
  DirEntry_Info d w = (entry_info w d, logged (info_calls d) w).
Proof.
  destruct d as [fi|par n t [fi|]]; simpl; try by rewrite logged_nil.
  apply os_Lstat_run.
Qed.

(** The arguments of the [Lchown] call that a filter asks for, if any. *)
Definition uid_due (u : option ChownUIDArgs) (st : Stat_t) : option (Z * Z) :=
  match u with
  | Some a => if (Uid st =? FromUID a)%N then Some (Z.of_N (ToUID a), -1) else None
  | None => None
  end.

Definition gid_due (g : option ChownGIDArgs) (st : Stat_t) : option (Z * Z) :=
  match g with
  | Some a => if (Gid st =? FromGID a)%N then Some (-1, Z.of_N (ToGID a)) else None
  | None => None
  end.

Definition chown_step (prefix : string) (p : path) (due : option (Z * Z))
  : M (option error) :=
  match due with
  | Some (a, b) => e ← os_Lchown p a b; mret (Errorf_w prefix <$> e)
  | None => mret None
  end.

Definition chown_steps (u : option ChownUIDArgs) (g : option ChownGIDArgs)
    (p : path) (st : Stat_t) : M (option error) :=
  e1 ← chown_step "failed to change ownership: " p (uid_due u st);
  match e1 with
  | Some e => mret (Some e)
  | None => chown_step "failed to change group ownership: " p (gid_due g st)
  end.

Definition no_raw_stat (p : path) : error :=
  errorString ("failed to get raw stat for " +:+ dquote +:+ path_str p +:+ dquote).

Lemma visit_run u g p d w :
  visit u g p (Some d) None w =
  match entry_info w d with
  | Err e => (Some e, logged (info_calls d) w)
  | Ok fi =>
      match Sys fi with
      | None => (Some (no_raw_stat p), logged (info_calls d) w)
      | Some st => chown_steps u g p st (logged (info_calls d) w)
      end
  end.
Proof.
  unfold visit. unfold mbind at 1. unfold M_bind.
  rewrite DirEntry_Info_run.
  destruct (entry_info w d) as [fi|e]; [|done].
  destruct (Sys fi) as [st|]; [|done].
  unfold chown_steps, chown_step, uid_due, gid_due. unfold_M.
  destruct u as [a|]; [destruct (Uid st =? FromUID a)%N|];
    (destruct g as [b|]; [destruct (Gid st =? FromGID b)%N|]); simpl;
    repeat (match goal with
            | |- context [os_Lchown ?p ?a ?b ?w] =>
                destruct (os_Lchown p a b w) as [[?|] ?]
            end; simpl); done.
Qed.

Lemma visit_error u g p d e w : visit u g p d (Some e) w = (Some e, w).
Proof. done. Qed.

Lemma os_Lchown_run p a b w :
  os_Lchown p a b w =
  ((lchown_at w p a b).1,
   set_fs (λ _, (lchown_at w p a b).2) (logged [CLchown p a b] w)).
Proof.
  unfold os_Lchown. unfold_M.
  change (lchown_at (set_trace _ w) p a b) with (lchown_at w p a b).
  by destruct (lchown_at w p a b).
Qed.

(** What a call of [os.Lchown] leaves alone. *)
Definition shape (m : gmap path inode) : gmap path ftype := typ <$> m.

Lemma lchown_at_shape w p a b : shape (lchown_at w p a b).2 = shape (fs w).
Proof.
  unfold lchown_at. repeat case_match; simpl; try done.
  unfold shape. apply map_eq. intros k. rewrite !lookup_fmap.
  destruct (decide (k = p)) as [->|Hne].
  - rewrite lookup_alter_eq. by destruct (fs w !! p).
  - by rewrite lookup_alter_ne.
Qed.

Lemma lchown_at_frame w p a b k :
  k ≠ p → (lchown_at w p a b).2 !! k = fs w !! k.
Proof.
  intros Hne. unfold lchown_at. repeat case_match; simpl; try done.
  by rewrite lookup_alter_ne.
Qed.

Lemma lchown_at_failed w p a b e :
  (lchown_at w p a b).1 = Some e →
  (lchown_at w p a b).2 = fs w ∧ ∃ c, e = PathError "lchown" p (SyscallErrno c).
Proof.
  unfold lchown_at. repeat case_match; simpl; intros; simplify_eq; eauto.
Qed.

Lemma lchown_at_ok w p a b :
  (lchown_at w p a b).1 = None →
  (lchown_at w p a b).2 = alter (chown_inode a b) p (fs w)
  ∧ is_Some (fs w !! p) ∧ faults w (CLchown p a b) = None.
Proof.
  unfold lchown_at. repeat case_match; simpl; intros; simplify_eq; eauto.
Qed.

(** *** The walk as a sequence of steps *)

Definition is_skip (e : error) : bool :=
  match e with SkipDir | SkipAll => true | _ => false end.

Lemma chown_step_no_skip prefix p due w e :
  (chown_step prefix p due w).1 = Some e → is_skip e = false.
Proof.
  unfold chown_step. destruct due as [[a b]|]; [|done].
  unfold_M. rewrite os_Lchown_run. simpl.
  destruct (lchown_at w p a b).1; simpl; intros; by simplify_eq.
Qed.

Lemma chown_steps_no_skip u g p st w e :
  (chown_steps u g p st w).1 = Some e → is_skip e = false.
Proof.
  unfold chown_steps. unfold_M.
  destruct (chown_step _ p (uid_due u st) w) as [[e1|] w1] eqn:E1; simpl.
  - intros [= <-]. eapply (chown_step_no_skip _ _ _ w e1). by rewrite E1.
  - apply chown_step_no_skip.
Qed.

Lemma visit_no_skip u g p d w e :
  (visit u g p (Some d) None w).1 = Some e → is_skip e = false.
Proof.
  rewrite visit_run.
  destruct (entry_info w d) as [fi|e0] eqn:Ei.
  - destruct (Sys fi); [apply chown_steps_no_skip|].
    simpl. by intros [= <-].
  - simpl. intros [= <-].
    destruct d as [fi|par n t [fi|]]; simpl in Ei; try done.
    by apply lstat_at_error in Ei as [c ->].
Qed.

(** The pure part of [os.ReadDir]. *)
Definition readdir_at (w : World) (name : path) : list DirEntry * option error :=
  match faults w (CReadDir name) with
  | Some e => ([], Some (PathError "open" name (SyscallErrno e)))
  | None =>
      match fs w !! name with
      | None => ([], Some (PathError "open" name (SyscallErrno ENOENT)))
      | Some i =>
          if bool_decide (typ i = TDir) then (dirents (fs w) name, None)
          else ([], Some (PathError "readdirent" name (SyscallErrno ENOTDIR)))
      end
  end.

Lemma os_ReadDir_run name w :
  os_ReadDir name w = (readdir_at w name, logged [CReadDir name] w).
Proof. done. Qed.

Lemma readdir_at_error w name e :
  (readdir_at w name).2 = Some e → is_skip e = false.
Proof. unfold readdir_at. repeat case_match; simpl; intros; by simplify_eq. Qed.

Lemma readdir_at_ok w name :
  (readdir_at w name).2 = None → (readdir_at w name).1 = dirents (fs w) name.
Proof. unfold readdir_at. repeat case_match; simpl; intros; by simplify_eq. Qed.

(** The steps of a walk: visiting an entry, and listing a directory. *)
Inductive step :=
| SVisit (p : path) (d : DirEntry)
| SReadDir (p : path) (d : DirEntry).

Definition run_step (u : option ChownUIDArgs) (g : option ChownGIDArgs)
    (s : step) : M (option error) :=
  match s with
  | SVisit p d => visit u g p (Some d) None
  | SReadDir p d =>
      r ← os_ReadDir p;
      match r.2 with
      | Some e => visit u g p (Some d) (Some e)
      | None => mret None
      end
  end.

(** Run the steps in order and stop at the first error. *)
Fixpoint run_steps (u : option ChownUIDArgs) (g : option ChownGIDArgs)
    (l : list step) : M (option error) :=
  match l with
  | [] => mret None
  | s :: l =>
      e ← run_step u g s;
      match e with
      | Some e => mret (Some e)
      | None => run_steps u g l
      end
  end.

(** The steps of [walkDir] on [p], in order, read off the file system. *)
Fixpoint steps (fuel : nat) (m : gmap path inode) (p : path) (d : DirEntry)
  : list step :=
  match fuel with
  | O => []
  | S n =>
      SVisit p d ::
      if DirEntry_IsDir d then
        SReadDir p d ::
        concat (map (λ d1, steps n m (Join p (DirEntry_Name d1)) d1) (dirents m p))
      else []
  end.

Lemma run_steps_app u g l1 l2 w :
  run_steps u g (l1 ++ l2) w =
  match run_steps u g l1 w with
  | (Some e, w1) => (Some e, w1)
  | (None, w1) => run_steps u g l2 w1
  end.
Proof.
  revert w. induction l1 as [|s l1 IH]; intros w; simpl; [done|].
  unfold_M. destruct (run_step u g s w) as [[e|] w1]; [done|]. apply IH.
Qed.

Lemma run_step_no_skip u g s w e :
  (run_step u g s w).1 = Some e → is_skip e = false.
Proof.
  destruct s as [p d|p d]; simpl; [apply visit_no_skip|].
  unfold_M. rewrite os_ReadDir_run.
  destruct (readdir_at w p).2 as [e0|] eqn:E; simpl; [|done].
  intros [= <-]. by eapply readdir_at_error.
Qed.

Lemma run_steps_no_skip u g l w e :
  (run_steps u g l w).1 = Some e → is_skip e = false.
Proof.
  revert w. induction l as [|s l IH]; intros w; simpl; [done|].
  unfold_M. destruct (run_step u g s w) as [[e0|] w1] eqn:E; simpl.
  - intros [= <-]. eapply (run_step_no_skip u g s w). by rewrite E.
  - apply IH.
Qed.

(** *** What the steps leave alone: the shape of the tree and the
    environment *)

Definition stable (w w' : World) : Prop :=
  shape (fs w') = shape (fs w) ∧ faults w' = faults w.

Lemma stable_refl w : stable w w.
Proof. done. Qed.

Lemma stable_trans w1 w2 w3 : stable w1 w2 → stable w2 w3 → stable w1 w3.
Proof. intros [H1 H2] [H3 H4]. split; congruence. Qed.

Lemma stable_logged cs w : stable w (logged cs w).
Proof. done. Qed.

Lemma chown_step_stable prefix p due w : stable w (chown_step prefix p due w).2.
Proof.
  unfold chown_step. destruct due as [[a b]|]; [|done].
  unfold_M. rewrite os_Lchown_run. simpl. split; [|done].
  simpl. apply lchown_at_shape.
Qed.

Lemma chown_steps_stable u g p st w : stable w (chown_steps u g p st w).2.
Proof.
  unfold chown_steps. unfold_M.
  pose proof (chown_step_stable "failed to change ownership: " p (uid_due u st) w) as H1.
  destruct (chown_step _ p (uid_due u st) w) as [[e1|] w1]; simpl in *; [done|].
  eapply stable_trans; [exact H1|]. apply chown_step_stable.
Qed.

Lemma visit_stable u g p d e w : stable w (visit u g p d e w).2.
Proof.
  destruct e as [e|]; [done|]. destruct d as [d|]; [|done].
  rewrite visit_run.
  destruct (entry_info w d) as [fi|]; [|apply stable_logged].
  destruct (Sys fi); [|apply stable_logged].
  eapply stable_trans; [apply (stable_logged (info_calls d))|].
  apply chown_steps_stable.
Qed.

Lemma run_step_stable u g s w : stable w (run_step u g s w).2.
Proof.
  destruct s as [p d|p d]; [apply (visit_stable u g p (Some d) None)|].
  simpl. unfold_M. rewrite os_ReadDir_run.
  destruct (readdir_at w p).2; simpl; done.
Qed.

Lemma run_steps_stable u g l w : stable w (run_steps u g l w).2.
Proof.
  revert w. induction l as [|s l IH]; intros w; simpl; [done|].
  unfold_M. pose proof (run_step_stable u g s w) as H1.
  destruct (run_step u g s w) as [[e|] w1]; simpl in *; [done|].
  eapply stable_trans; [exact H1|]. apply IH.
Qed.

(** *** What depends on the shape only *)

Lemma shape_dom m m' : shape m = shape m' → dom m = dom m'.
Proof.
  intros H. unfold shape in H.
  by rewrite <-(dom_fmap_L typ m), <-(dom_fmap_L typ m'), H.
Qed.

Lemma shape_lookup m m' k : shape m = shape m' → typ <$> m !! k = typ <$> m' !! k.
Proof. intros H. unfold shape in H. by rewrite <-!lookup_fmap, H. Qed.

Lemma children_shape m m' p : shape m = shape m' → children m p = children m' p.
Proof. intros H. unfold children. by rewrite (shape_dom _ _ H). Qed.

Lemma dirents_shape m m' p : shape m = shape m' → dirents m p = dirents m' p.
Proof.
  intros H. unfold dirents. rewrite (children_shape _ _ _ H).
  induction (children m' p) as [|n l IH]; [done|].
  rewrite !(omap_app _ [n] l). rewrite IH. f_equal.
  pose proof (shape_lookup _ _ (Join p n) H) as Hk. simpl.
  destruct (m !! Join p n) as [i|], (m' !! Join p n) as [i'|]; simpl in *;
    simplify_eq; try done. by rewrite Hk.
Qed.

Lemma depth_shape m m' : shape m = shape m' → depth m = depth m'.
Proof. intros H. unfold depth. by rewrite (shape_dom _ _ H). Qed.

Lemma depth_bound m k : is_Some (m !! k) → (length k ≤ depth m)%nat.
Proof.
  intros Hk. unfold depth. apply max_list_elem_of_le.
  apply list_elem_of_fmap. exists k. split; [done|].
  by apply elem_of_elements, elem_of_dom.
Qed.

Lemma dirents_elem m p d1 :
  d1 ∈ dirents m p →
  ∃ n i, d1 = unixDirent p n (type_bits (typ i)) None ∧ m !! Join p n = Some i.
Proof.
  unfold dirents. rewrite list_elem_of_omap. intros [n [_ Hn]].
  destruct (m !! Join p n) as [i|] eqn:E; simpl in Hn; simplify_eq. eauto.
Qed.

(** *** [walkDir] runs the steps *)

Lemma walkDir_steps u g m fuel : ∀ p d w,
  shape (fs w) = shape m →
  (length p ≤ depth m)%nat → (depth m < fuel + length p)%nat →
  walkDir fuel p d (visit u g) w = Some (run_steps u g (steps fuel m p d) w).
Proof.
  induction fuel as [|n IH]; intros p d w Hsh Hlen Hfuel; [lia|].
  cbn [walkDir steps run_steps]. unfold mbind at 1. unfold M_bind.
  cbn [run_step].
  pose proof (visit_no_skip u g p d w) as Hskip.
  pose proof (visit_stable u g p (Some d) None w) as [Hsh1 _].
  destruct (visit u g p (Some d) None w) as [[e|] w1]; cbn [fst snd] in Hskip, Hsh1.
  { specialize (Hskip e eq_refl).
    assert (is_SkipDir e = false) as -> by (by destruct e).
    done. }
  assert (bool_decide (is_Some (@None error)) = false) as -> by done.
  destruct (DirEntry_IsDir d) eqn:Hd; cbn [negb orb]; [|done].
  cbn [run_steps]. unfold mbind at 1. unfold M_bind. cbn [run_step].
  unfold mbind at 1. unfold M_bind.
  rewrite os_ReadDir_run.
  pose proof (readdir_at_error w1 p) as Hre.
  pose proof (readdir_at_ok w1 p) as Hro.
  destruct (readdir_at w1 p) as [dirs [e|]]; cbn [fst snd] in *.
  { specialize (Hre e eq_refl). rewrite visit_error.
    assert (is_SkipDir e = false) as -> by (by destruct e).
    done. }
  rewrite (Hro eq_refl).
  assert (dirents (fs w1) p = dirents m p) as ->.
  { apply dirents_shape. congruence. }
  assert (shape (fs (logged [CReadDir p] w1)) = shape m) as Hsh2.
  { change (shape (fs w1) = shape m). congruence. }
  unfold mret at 1. unfold M_ret.
  revert Hsh2. generalize (logged [CReadDir p] w1). clear Hsh1 Hre Hro Hskip w1 w Hsh.
  assert (Forall (λ d1, d1 ∈ dirents m p) (dirents m p)) as Hall.
  { by apply Forall_forall. }
  revert Hall. generalize (dirents m p) at 2 3 4.
  intros ds. induction ds as [|d1 ds IHds]; intros Hall w Hsh; [done|].
  apply Forall_cons in Hall as [Hd1 Hall].
  cbn [map concat]. rewrite run_steps_app.
  apply dirents_elem in Hd1 as (x & i & -> & Hx).
  rewrite (IH (Join p (DirEntry_Name (unixDirent p x (type_bits (typ i)) None)))
              (unixDirent p x (type_bits (typ i)) None) w Hsh).
  2:{ cbn. apply depth_bound. eauto. }
  2:{ cbn. unfold Join. rewrite length_app. cbn. lia. }
  pose proof (run_steps_no_skip u g
    (steps n m (Join p (DirEntry_Name (unixDirent p x (type_bits (typ i)) None)))
       (unixDirent p x (type_bits (typ i)) None)) w) as Hskip.
  pose proof (run_steps_stable u g
    (steps n m (Join p (DirEntry_Name (unixDirent p x (type_bits (typ i)) None)))
       (unixDirent p x (type_bits (typ i)) None)) w) as [Hsh1 _].
  destruct (run_steps u g _ w) as [[e|] w1]; cbn [fst snd] in Hskip, Hsh1.
  { specialize (Hskip e eq_refl).
    assert (is_SkipDir e = false) as -> by (by destruct e).
    done. }
  apply IHds; [done|congruence].
Qed.

(** The steps of the whole walk of [root] in [w]. *)
Definition walk_steps (w : World) (root : path) (info : FileInfo) : list step :=
  steps (walk_fuel w) (fs w) root (dirInfo info).

Lemma lstat_at_ok w p fi :
  lstat_at w p = Ok fi →
  faults w (CLstat p) = None ∧ ∃ i, fs w !! p = Some i ∧ fi = fileinfo_of p i.
Proof.
  unfold lstat_at. destruct (faults w (CLstat p)); [done|].
  destruct (fs w !! p) as [i|]; [|done]. intros [= <-]. eauto.
Qed.

(** [ChownRecursiveFrom] always returns: it is the run of the steps of the
    walk, up to the first error. *)
Lemma ChownRecursiveFrom_run root u g w :
  is_Some u ∨ is_Some g →
  ChownRecursiveFrom root u g w =
  Some match lstat_at w root with
       | Err e => (Some e, logged [CLstat root] w)
       | Ok info => run_steps u g (walk_steps w root info) (logged [CLstat root] w)
       end.
Proof.
  intros Hf.
  assert (ChownRecursiveFrom root u g w = WalkDir root (visit u g) w) as ->.
  { unfold ChownRecursiveFrom. destruct u, g; try done.
    destruct Hf as [[? ?]|[? ?]]; done. }
  unfold WalkDir. rewrite os_Lstat_run.
  destruct (lstat_at w root) as [info|e] eqn:El.
  - apply lstat_at_ok in El as (_ & i & Hi & _).
    rewrite (walkDir_steps u g (fs w)); [|done| |].
    2:{ apply depth_bound. eauto. }
    2:{ unfold walk_fuel. cbn. lia. }
    cbn [mbind option_bind]. unfold walk_steps.
    change (walk_fuel (logged [CLstat root] w)) with (walk_fuel w).
    pose proof (run_steps_no_skip u g
      (steps (walk_fuel w) (fs w) root (dirInfo info)) (logged [CLstat root] w)) as Hs.
    destruct (run_steps u g _ _) as [[e|] w1]; [|done].
    specialize (Hs e eq_refl). by destruct e.
  - rewrite visit_error. cbn [mbind option_bind].
    apply lstat_at_error in El as [c ->]. done.
Qed.

Lemma run_steps_abort u g pre s post w w1 e :
  run_steps u g pre w = (None, w1) → (run_step u g s w1).1 = Some e →
  run_steps u g (pre ++ s :: post) w = (Some e, (run_step u g s w1).2).
Proof.
  intros Hpre Hs. rewrite run_steps_app, Hpre. cbn [run_steps]. unfold_M.
  destruct (run_step u g s w1) as [[e'|] w2]; simpl in *; by simplify_eq.
Qed.

(** *** The ownership a visit leaves behind *)

(** The entry after a complete visit: the owner is replaced when a UID
    filter is set and the owner is FromUID, the group when a GID filter is
    set and the group is FromGID; nothing else changes. *)
Definition owned (u : option ChownUIDArgs) (g : option ChownGIDArgs)
    (i : inode) : inode :=
  {| typ := typ i; perm := perm i;
     uid := match u with
            | Some a => if (uid i =? FromUID a)%N then ToUID a else uid i
            | None => uid i
            end;
     gid := match g with
            | Some a => if (gid i =? FromGID a)%N then ToGID a else gid i
            | None => gid i
            end |}.

Definition stat_of (i : inode) : Stat_t := {| Uid := uid i; Gid := gid i |}.

Lemma inode_eta i : {| typ := typ i; perm := perm i; uid := uid i; gid := gid i |} = i.
Proof. by destruct i. Qed.

Lemma owned_none i : owned None None i = i.
Proof. apply inode_eta. Qed.

Lemma chown_uid_owned u i a b :
  uid_due u (stat_of i) = Some (a, b) → chown_inode a b i = owned u None i.
Proof.
  unfold uid_due, owned, chown_inode. destruct u as [x|]; [|done]. simpl.
  destruct (uid i =? FromUID x)%N; [|done]. intros [= <- <-].
  assert ((Z.of_N (ToUID x) =? -1) = false) as -> by (apply Z.eqb_neq; lia).
  by rewrite N2Z.id.
Qed.

Lemma chown_gid_owned u g i a b :
  gid_due g (stat_of i) = Some (a, b) →
  chown_inode a b (owned u None i) = owned u g i.
Proof.
  unfold gid_due, owned, chown_inode. destruct g as [x|]; [|done]. simpl.
  destruct (gid i =? FromGID x)%N; [|done]. intros [= <- <-].
  assert ((Z.of_N (ToGID x) =? -1) = false) as -> by (apply Z.eqb_neq; lia).
  by rewrite N2Z.id.
Qed.

Lemma uid_not_due_owned u i : uid_due u (stat_of i) = None → owned u None i = i.
Proof.
  unfold uid_due, owned. destruct u as [x|]; simpl; [|intros; apply inode_eta].
  destruct (uid i =? FromUID x)%N; [done|]. intros; apply inode_eta.
Qed.

Lemma gid_not_due_owned u g i :
  gid_due g (stat_of i) = None → owned u g i = owned u None i.
Proof.
  unfold gid_due, owned. destruct g as [x|]; simpl; [|done].
  by destruct (gid i =? FromGID x)%N.
Qed.

Lemma owned_idemp u g i : owned u g (owned u g i) = owned u g i.
Proof.
  unfold owned. simpl. f_equal.
  - destruct u as [x|]; [|done].
    destruct (uid i =? FromUID x)%N eqn:E; [|by rewrite E].
    destruct (ToUID x =? FromUID x)%N; done.
  - destruct g as [x|]; [|done].
    destruct (gid i =? FromGID x)%N eqn:E; [|by rewrite E].
    destruct (ToGID x =? FromGID x)%N; done.
Qed.

Lemma owned_uid_settled u g i : owned u None (owned u g i) = owned u g i.
Proof.
  unfold owned. simpl. f_equal.
  destruct u as [x|]; [|done].
  destruct (uid i =? FromUID x)%N eqn:E; [|by rewrite E].
  destruct (ToUID x =? FromUID x)%N; done.
Qed.

(** *** The effect of one step *)

Definition uid_error (p : path) (c : Errno) : error :=
  Errorf_w "failed to change ownership: " (PathError "lchown" p (SyscallErrno c)).

Definition gid_error (p : path) (c : Errno) : error :=
  Errorf_w "failed to change group ownership: " (PathError "lchown" p (SyscallErrno c)).

Lemma chown_step_run prefix p a b w :
  chown_step prefix p (Some (a, b)) w =
  (Errorf_w prefix <$> (lchown_at w p a b).1,
   set_fs (λ _, (lchown_at w p a b).2) (logged [CLchown p a b] w)).
Proof. unfold chown_step. unfold_M. by rewrite os_Lchown_run. Qed.

Lemma lchown_at_ok_lookup w p a b i :
  fs w !! p = Some i → (lchown_at w p a b).1 = None →
  (lchown_at w p a b).2 !! p = Some (chown_inode a b i).
Proof.
  intros Hi Hok. apply lchown_at_ok in Hok as (-> & _).
  by rewrite lookup_alter_eq, Hi.
Qed.

Lemma chown_steps_effect u g p i w :
  fs w !! p = Some i →
  let out := chown_steps u g p (stat_of i) w in
  (∀ k, k ≠ p → fs out.2 !! k = fs w !! k) ∧
  match out.1 with
  | None => fs out.2 !! p = Some (owned u g i)
  | Some e =>
      (fs out.2 !! p = Some i ∧ ∃ c, e = uid_error p c)
      ∨ (fs out.2 !! p = Some (owned u None i) ∧ ∃ c, e = gid_error p c)
  end.
Proof.
  intros Hi. unfold chown_steps. unfold mbind, M_bind.
  destruct (uid_due u (stat_of i)) as [[a b]|] eqn:Eu.
  - rewrite chown_step_run.
    destruct (lchown_at w p a b).1 as [e|] eqn:E1; cbn [fmap option_fmap option_map].
    + apply lchown_at_failed in E1 as [E1 [c ->]].
      cbn. rewrite E1. split; [done|]. left. eauto.
    + pose proof (lchown_at_ok_lookup _ _ _ _ _ Hi E1) as Hp.
      rewrite (chown_uid_owned _ _ _ _ Eu) in Hp.
      assert (∀ k, k ≠ p → (lchown_at w p a b).2 !! k = fs w !! k) as Hfr
        by (intros; by apply lchown_at_frame).
      remember (set_fs (λ _, (lchown_at w p a b).2) (logged [CLchown p a b] w))
        as w2 eqn:Ew2.
      assert (fs w2 = (lchown_at w p a b).2) as Hw2 by (by subst w2).
      clear Ew2.
      destruct (gid_due g (stat_of i)) as [[a' b']|] eqn:Eg.
      * rewrite chown_step_run.
        destruct (lchown_at w2 p a' b').1 as [e|] eqn:E2;
          cbn [fmap option_fmap option_map].
        -- apply lchown_at_failed in E2 as [E2 [c ->]].
           cbn. rewrite E2, Hw2. split; [done|]. right. eauto.
        -- cbn. split.
           ++ intros k Hk. rewrite lchown_at_frame by done. rewrite Hw2. by apply Hfr.
           ++ rewrite (lchown_at_ok_lookup w2 p a' b' (owned u None i)); [|by rewrite Hw2|done].
              by rewrite (chown_gid_owned _ _ _ _ _ Eg).
      * cbn. rewrite Hw2. split; [done|].
        by rewrite (gid_not_due_owned _ _ _ Eg).
  - cbn [chown_step]. unfold mret, M_ret.
    pose proof (uid_not_due_owned _ _ Eu) as Hu.
    destruct (gid_due g (stat_of i)) as [[a' b']|] eqn:Eg.
    + rewrite chown_step_run.
      destruct (lchown_at w p a' b').1 as [e|] eqn:E2;
        cbn [fmap option_fmap option_map].
      * apply lchown_at_failed in E2 as [E2 [c ->]].
        cbn. rewrite E2. split; [done|]. right. rewrite Hu. eauto.
      * cbn. split; [intros; by apply lchown_at_frame|].
        rewrite (lchown_at_ok_lookup w p a' b' i) by done.
        by rewrite <-(chown_gid_owned u g i a' b'), Hu.
    + cbn. split; [done|]. by rewrite (gid_not_due_owned _ _ _ Eg), Hu.
Qed.

(** An entry whose info is read when it is visited. *)
Definition fresh (w : World) (p : path) (d : DirEntry) : Prop :=
  match d with
  | dirInfo fi => lstat_at w p = Ok fi
  | unixDirent par n _ None => p = Join par n
  | unixDirent _ _ _ (Some _) => False
  end.

Lemma fresh_info w p d : fresh w p d → entry_info w d = lstat_at w p.
Proof. destruct d as [fi|par n t [fi|]]; simpl; try done. by intros ->. Qed.

Lemma visit_effect u g p d w :
  fresh w p d →
  let out := visit u g p (Some d) None w in
  (∀ k, k ≠ p → fs out.2 !! k = fs w !! k) ∧
  match out.1 with
  | None => ∃ i, fs w !! p = Some i ∧ fs out.2 !! p = Some (owned u g i)
  | Some e =>
      (fs out.2 = fs w ∧ lstat_at w p = Err e)
      ∨ ∃ i, fs w !! p = Some i ∧
          ((fs out.2 !! p = Some i ∧ ∃ c, e = uid_error p c)
           ∨ (fs out.2 !! p = Some (owned u None i) ∧ ∃ c, e = gid_error p c))
  end.
Proof.
  intros Hfr. cbv zeta. rewrite visit_run, (fresh_info _ _ _ Hfr).
  destruct (lstat_at w p) as [fi|e] eqn:El.
  - apply lstat_at_ok in El as (_ & i & Hi & ->).
    change (Sys (fileinfo_of p i)) with (Some (stat_of i)). cbv iota.
    pose proof (chown_steps_effect u g p i (logged (info_calls d) w) Hi) as [H1 H2].
    split; [exact H1|].
    destruct (chown_steps u g p (stat_of i) (logged (info_calls d) w)).1.
    + right. exists i. split; [done|]. exact H2.
    + exists i. split; [done|]. exact H2.
  - split; [done|]. left. done.
Qed.

Definition step_path (s : step) : path :=
  match s with SVisit p _ | SReadDir p _ => p end.

(** The entries a list of steps visits, in order. *)
Definition visited (l : list step) : list path :=
  omap (λ s, match s with SVisit p _ => Some p | SReadDir _ _ => None end) l.

(** The steps below the root carry entries of [ReadDir], whose info is read
    at the visit. *)
Definition lazy_step (s : step) : Prop :=
  match s with
  | SVisit p (unixDirent par n _ None) => p = Join par n
  | SVisit _ _ => False
  | SReadDir _ _ => True
  end.

Definition fresh_step (w : World) (s : step) : Prop :=
  match s with
  | SVisit p d => fresh w p d
  | SReadDir _ _ => True
  end.

Lemma lazy_fresh s w : lazy_step s → fresh_step w s.
Proof. by destruct s as [p [fi|par n t [fi|]]|p d]. Qed.

Lemma steps_lazy m fuel : ∀ par n t,
  Forall lazy_step (steps fuel m (Join par n) (unixDirent par n t None)).
Proof.
  induction fuel as [|k IH]; intros par n t; cbn [steps]; [constructor|].
  constructor; [done|].
  destruct (DirEntry_IsDir _); [|constructor].
  constructor; [done|].
  apply Forall_concat, Forall_fmap, Forall_forall. intros d1 Hd1.
  apply dirents_elem in Hd1 as (x & i & -> & _). apply IH.
Qed.

Lemma walk_steps_shape w root info :
  ∃ tl, walk_steps w root info = SVisit root (dirInfo info) :: tl
        ∧ Forall lazy_step tl.
Proof.
  unfold walk_steps, walk_fuel. cbn [steps]. eexists. split; [done|].
  destruct (DirEntry_IsDir _); [|constructor].
  constructor; [done|].
  apply Forall_concat, Forall_fmap, Forall_forall. intros d1 Hd1.
  apply dirents_elem in Hd1 as (x & i & -> & _). apply steps_lazy.
Qed.

Lemma run_step_effect u g s w :
  fresh_step w s →
  let out := run_step u g s w in
  (∀ k, k ≠ step_path s → fs out.2 !! k = fs w !! k) ∧
  match s with
  | SReadDir p d => fs out.2 = fs w ∧ out.1 = (readdir_at w p).2
  | SVisit p d =>
      match out.1 with
      | None => ∃ i, fs w !! p = Some i ∧ fs out.2 !! p = Some (owned u g i)
      | Some e =>
          (fs out.2 = fs w ∧ lstat_at w p = Err e)
          ∨ ∃ i, fs w !! p = Some i ∧
              ((fs out.2 !! p = Some i ∧ ∃ c, e = uid_error p c)
               ∨ (fs out.2 !! p = Some (owned u None i) ∧ ∃ c, e = gid_error p c))
      end
  end.
Proof.
  destruct s as [p d|p d]; intros Hfr; [by apply visit_effect|].
  cbn [run_step]. unfold mbind, M_bind. rewrite os_ReadDir_run. cbn [snd].
  destruct (readdir_at w p).2 as [e|]; [rewrite visit_error|]; done.
Qed.

(** *** The ownership after a run of steps *)

(** In [w] the entries listed in [V] have their new ownership and all
    others are as in [w0]. *)
Definition owned_in (u : option ChownUIDArgs) (g : option ChownGIDArgs)
    (w0 : World) (V : list path) (w : World) : Prop :=
  ∀ k, (k ∈ V → fs w !! k = owned u g <$> fs w0 !! k)
       ∧ (k ∉ V → fs w !! k = fs w0 !! k).

Lemma owned_in_start u g w0 w : fs w = fs w0 → owned_in u g w0 [] w.
Proof. intros H k. rewrite H. split; [by intros ?%elem_of_nil|done]. Qed.

Lemma run_step_inv u g w0 V s w w' :
  fresh_step w s → owned_in u g w0 V w →
  run_step u g s w = (None, w') →
  owned_in u g w0 (V ++ visited [s]) w'.
Proof.
  intros Hfr Hinv Hrun.
  pose proof (run_step_effect u g s w Hfr) as [Hframe Heff].
  rewrite Hrun in Hframe, Heff. cbn [fst snd] in *.
  destruct s as [p d|p d]; cbn [visited omap list_omap step_path] in *.
  - destruct Heff as (i & Hi & Hp). intros k.
    destruct (decide (k = p)) as [->|Hne].
    + split; [|intros Hn; exfalso; apply Hn, elem_of_app; right;
                 by apply list_elem_of_singleton].
      intros _. rewrite Hp.
      destruct (decide (p ∈ V)) as [HV|HV].
      * apply Hinv in HV. rewrite Hi in HV.
        destruct (fs w0 !! p) as [i0|]; simplify_eq/=. by rewrite owned_idemp.
      * apply Hinv in HV. by rewrite <-HV, Hi.
    + rewrite (Hframe k Hne). destruct (Hinv k) as [H1 H2].
      split; intros Hk.
      * apply H1. apply elem_of_app in Hk as [Hk|Hk]; [done|].
        by apply list_elem_of_singleton in Hk.
      * apply H2. intros HV. apply Hk, elem_of_app. by left.
  - destruct Heff as [Hfs _]. rewrite app_nil_r. intros k. rewrite Hfs. apply Hinv.
Qed.

Lemma run_steps_inv u g w0 l : ∀ V w w',
  Forall lazy_step l → owned_in u g w0 V w →
  run_steps u g l w = (None, w') →
  owned_in u g w0 (V ++ visited l) w'.
Proof.
  induction l as [|s l IH]; intros V w w' Hl Hinv Hrun.
  - cbn in Hrun. injection Hrun as <-. by rewrite app_nil_r.
  - apply Forall_cons in Hl as [Hs Hl].
    cbn [run_steps] in Hrun. unfold mbind, M_bind in Hrun.
    destruct (run_step u g s w) as [[e|] w1] eqn:E1; [done|].
    change (s :: l) with ([s] ++ l). unfold visited. rewrite omap_app, app_assoc.
    eapply IH; [done| |done].
    eapply run_step_inv; [by apply lazy_fresh|done|done].
Qed.

(** A step that fails does not undo what the steps before it did. *)
Lemma run_step_failed_inv u g w0 V s w e :
  fresh_step w s → owned_in u g w0 V w →
  (run_step u g s w).1 = Some e →
  ∀ k, (k ∈ V → fs (run_step u g s w).2 !! k = owned u g <$> fs w0 !! k)
       ∧ (k ∉ V → k ≠ step_path s → fs (run_step u g s w).2 !! k = fs w0 !! k).
Proof.
  intros Hfr Hinv Hrun k.
  pose proof (run_step_effect u g s w Hfr) as [Hframe Heff].
  cbv zeta in Heff. rewrite Hrun in Heff.
  destruct (Hinv k) as [H1 H2].
  split; [|intros Hk Hne; rewrite Hframe by done; by apply H2].
  intros Hk. specialize (H1 Hk).
  destruct (decide (k = step_path s)) as [->|Hne];
    [|by rewrite Hframe].
  destruct s as [p d|p d]; cbn [step_path] in *.
  - destruct Heff as [[-> _]|(i & Hi & [[-> _]|[-> _]])]; [done|by rewrite <-Hi|].
    rewrite Hi in H1.
    destruct (fs w0 !! p) as [i0|]; simplify_eq/=. by rewrite owned_uid_settled.
  - destruct Heff as [-> _]. done.
Qed.

(** The ownership when a prefix of the walk has run without error. *)
Lemma walk_prefix_inv u g w root info pre s post w1 :
  lstat_at w root = Ok info →
  walk_steps w root info = pre ++ s :: post →
  run_steps u g pre (logged [CLstat root] w) = (None, w1) →
  owned_in u g w (visited pre) w1 ∧ fresh_step w1 s.
Proof.
  intros Hl Hsteps Hrun.
  destruct (walk_steps_shape w root info) as (tl & Hw & Hlazy).
  rewrite Hw in Hsteps.
  destruct pre as [|s0 pre].
  - cbn in Hrun. injection Hrun as <-. cbn in Hsteps. injection Hsteps as <- _.
    split; [by apply owned_in_start|]. exact Hl.
  - cbn [app] in Hsteps. injection Hsteps as <- ->.
    apply Forall_app in Hlazy as [Hpre Hrest].
    apply Forall_cons in Hrest as [Hs _].
    split; [|by apply lazy_fresh].
    cbn [run_steps] in Hrun. unfold mbind, M_bind in Hrun.
    destruct (run_step u g (SVisit root (dirInfo info)) (logged [CLstat root] w))
      as [[e|] wa] eqn:Ea; [done|].
    change (SVisit root (dirInfo info) :: pre)
      with ([SVisit root (dirInfo info)] ++ pre).
    unfold visited. rewrite omap_app.
    eapply run_steps_inv; [done| |done].
    apply (run_step_inv u g w [] (SVisit root (dirInfo info)) (logged [CLstat root] w));
      [exact Hl|by apply owned_in_start|done].
Qed.

(** Without faults a visit succeeds, and makes exactly the calls that are
    due, the UID change first. *)
Definition due_calls (u : option ChownUIDArgs) (g : option ChownGIDArgs)
    (p : path) (i : inode) : list call :=
  match uid_due u (stat_of i) with
  | Some (a, b) => [CLchown p a b]
  | None => []
  end ++
  match gid_due g (stat_of i) with
  | Some (a, b) => [CLchown p a b]
  | None => []
  end.

Lemma uid_due_args u st a b :
  uid_due u st = Some (a, b) → 0 ≤ a ∧ b = -1.
Proof.
  unfold uid_due. destruct u as [x|]; [|done].
  destruct (Uid st =? FromUID x)%N; [|done]. intros [= <- <-]. lia.
Qed.

Lemma gid_due_args g st a b :
  gid_due g st = Some (a, b) → a = -1 ∧ 0 ≤ b.
Proof.
  unfold gid_due. destruct g as [x|]; [|done].
  destruct (Gid st =? FromGID x)%N; [|done]. intros [= <- <-]. lia.
Qed.

Lemma lchown_at_nofault w p a b :
  is_Some (fs w !! p) → faults w (CLchown p a b) = None → -1 ≤ a → -1 ≤ b →
  (lchown_at w p a b).1 = None.
Proof.
  intros [i Hi] Hf Ha Hb. unfold lchown_at. rewrite Hf, Hi.
  assert ((a <? -1) = false) as -> by (apply Z.ltb_ge; lia).
  assert ((b <? -1) = false) as -> by (apply Z.ltb_ge; lia).
  done.
Qed.

Lemma chown_steps_nofault u g p i w :
  fs w !! p = Some i → (∀ a b, faults w (CLchown p a b) = None) →
  (chown_steps u g p (stat_of i) w).1 = None
  ∧ trace (chown_steps u g p (stat_of i) w).2 = trace w ++ due_calls u g p i.
Proof.
  intros Hi Hf. unfold chown_steps, due_calls. unfold mbind, M_bind.
  destruct (uid_due u (stat_of i)) as [[a b]|] eqn:Eu.
  - apply uid_due_args in Eu as [Ha ->]. rewrite chown_step_run.
    rewrite (lchown_at_nofault w p a (-1)) by (eauto || lia).
    cbn [fmap option_fmap option_map].
    remember (set_fs (λ _, (lchown_at w p a (-1)).2) (logged [CLchown p a (-1)] w))
      as w2 eqn:Ew2.
    assert (is_Some (fs w2 !! p)) as Hi2.
    { subst w2. cbn.
      pose proof (lchown_at_shape w p a (-1)) as Hs.
      apply (shape_lookup _ _ p) in Hs. rewrite Hi in Hs.
      destruct ((lchown_at w p a (-1)).2 !! p); [eauto|done]. }
    assert (faults w2 = faults w) as Hf2 by (by subst w2).
    assert (trace w2 = trace w ++ [CLchown p a (-1)]) as Ht2 by (by subst w2).
    clear Ew2.
    destruct (gid_due g (stat_of i)) as [[a' b']|] eqn:Eg.
    + apply gid_due_args in Eg as [-> Hb]. rewrite chown_step_run.
      rewrite (lchown_at_nofault w2 p (-1) b') by (done || rewrite ?Hf2; eauto || lia).
      cbn. rewrite Ht2. by rewrite <-app_assoc.
    + cbn. rewrite Ht2. done.
  - cbn [chown_step]. unfold mret, M_ret.
    destruct (gid_due g (stat_of i)) as [[a' b']|] eqn:Eg.
    + apply gid_due_args in Eg as [-> Hb]. rewrite chown_step_run.
      rewrite (lchown_at_nofault w p (-1) b') by (eauto || lia).
      done.
    + cbn. by rewrite app_nil_r.
Qed.

Section ChownRecursiveFrom_properties.

Import Fixtures.

Lemma insert_ext (m m' : gmap path inode) p j :
  m' !! p = Some j → (∀ k, k ≠ p → m' !! k = m !! k) → m' = <[p := j]> m.
Proof.
  intros Hp Hfr. apply map_eq. intros k.
  destruct (decide (k = p)) as [->|Hne].
  - by rewrite lookup_insert_eq.
  - rewrite lookup_insert_ne by done. by apply Hfr.
Qed.

(** C4. A visit of an entry whose info reads as its current state, in an
    environment where Lchown on it does not fail: the visit succeeds and
    the entry becomes [owned u g i]: its UID is ToUID when a UID filter is
    set and its UID was FromUID, else unchanged; its GID is ToGID when a
    GID filter is set and its GID was FromGID, else unchanged; type and
    permissions stay.  The two changes are separate Lchown calls on the
    entry itself, each passing -1 for the other id.  No other entry
    changes; in particular, when the entry is a symbolic link, what it
    points to is not touched. *)
Theorem visit_changes_matching_ids u g w p d i :
  entry_info w d = Ok (fileinfo_of p i) → fs w !! p = Some i →
  (∀ a b, faults w (CLchown p a b) = None) →
  let out := visit u g p (Some d) None w in
  out.1 = None
  ∧ fs out.2 = <[p := owned u g i]> (fs w)
  ∧ uid (owned u g i)
      = match u with
        | Some a => if (uid i =? FromUID a)%N then ToUID a else uid i
        | None => uid i
        end
  ∧ gid (owned u g i)
      = match g with
        | Some a => if (gid i =? FromGID a)%N then ToGID a else gid i
        | None => gid i
        end
  ∧ typ (owned u g i) = typ i ∧ perm (owned u g i) = perm i
  ∧ (∀ k, k ≠ p → fs out.2 !! k = fs w !! k)
  ∧ (∀ t, typ i = TSymlink t → t ≠ p → fs out.2 !! t = fs w !! t)
  ∧ trace out.2 = trace w ++ info_calls d ++ due_calls u g p i
  ∧ due_calls u g p i
      = match u with
        | Some a => if (uid i =? FromUID a)%N
                    then [CLchown p (Z.of_N (ToUID a)) (-1)] else []
        | None => []
        end ++
        match g with
        | Some a => if (gid i =? FromGID a)%N
                    then [CLchown p (-1) (Z.of_N (ToGID a))] else []
        | None => []
        end.
Proof.
  intros Hinfo Hi Hf out. subst out. rewrite visit_run, Hinfo.
  change (Sys (fileinfo_of p i)) with (Some (stat_of i)). cbv iota.
  pose proof (chown_steps_nofault u g p i (logged (info_calls d) w) Hi Hf)
    as [Hok Htr].
  pose proof (chown_steps_effect u g p i (logged (info_calls d) w) Hi)
    as [Hframe Hp].
  rewrite Hok in Hp.
  split; [done|]. split; [by apply insert_ext|].
  split; [done|]. split; [done|]. split; [done|]. split; [done|].
  split; [exact Hframe|]. split; [intros t _ Ht; by apply Hframe|].
  split.
  - rewrite Htr. cbn. by rewrite <-app_assoc.
  - unfold due_calls, uid_due, gid_due. cbn.
    destruct u as [a|], g as [b|]; try done;
      repeat (match goal with |- context [(?x =? ?y)%N] => destruct (x =? y)%N end);
      done.
Qed.

(** C5. With neither filter, ChownRecursiveFrom returns the precondition
    error at once, whatever the root: no call is made and the world is
    left exactly as it was. *)
Theorem ChownRecursiveFrom_without_filter root w :
  ChownRecursiveFrom root None None w =
  Some (Some (errorString
    "ChownRecursiveFrom: at least one of uidArgs or gidArgs must be non-nil"), w).
Proof. reflexivity. Qed.

Definition link_l : path := ["home"; "u"; "l"].
Definition dir_d : path := ["home"; "u"; "d"].
Definition file_a : path := ["home"; "u"; "a"].
Definition uid_1000_3000 : option ChownUIDArgs := Some (mkUIDArgs 1000 3000).
Definition gid_1000_4000 : option ChownGIDArgs := Some (mkGIDArgs 1000 4000).

(** The link /home/u/l and the file /etc/t it points to both belong to
    1000:1000; the visit of the link changes the link only. *)
Lemma visit_changes_matching_ids_witness :
  let w := world tree no_faults in
  let out := visit uid_1000_3000 gid_1000_4000 link_l
               (Some (unixDirent home_u "l" ModeSymlink None)) None w in
  out.1 = None
  ∧ fs out.2 !! link_l = Some (symlink 3000 4000 ["etc"; "t"])
  ∧ fs out.2 !! ["etc"; "t"] = Some (file 1000 1000 "T")
  ∧ trace out.2 = [CLstat link_l; CLchown link_l 3000 (-1); CLchown link_l (-1) 4000].
Proof.
  intros w out.
  destruct (visit_changes_matching_ids uid_1000_3000 gid_1000_4000 w link_l
              (unixDirent home_u "l" ModeSymlink None)
              (symlink 1000 1000 ["etc"; "t"]))
    as (H1 & H2 & _ & _ & _ & _ & H3 & H4 & H5 & H6);
    try (vm_compute; reflexivity).
  subst out. split; [exact H1|]. split; [|split].
  - rewrite H2. vm_compute; reflexivity.
  - rewrite (H4 ["etc"; "t"]);
      [vm_compute; reflexivity|vm_compute; reflexivity|discriminate].
  - rewrite H5, H6. vm_compute; reflexivity.
Defined.

(** C6. The walk stops at its first failing step and returns that step's
    error.  (1) When the root cannot be read, that lstat error is
    returned as it is.  (2) When the steps [pre] succeed and the next
    step [s] fails with [e], ChownRecursiveFrom returns [e] and the world
    is the one that failing step left: no call is made after it.  [e] is
    the lstat error of the entry as it is, or the Lchown error wrapped
    with the text naming the UID change or the GID change, or the error
    of listing a directory as it is.  Every entry visited before the
    failing step has its new ownership, and every entry not visited is
    as it was. *)
Theorem ChownRecursiveFrom_aborts_at_first_error root u g w :
  is_Some u ∨ is_Some g →
  (∀ e, lstat_at w root = Err e →
     ChownRecursiveFrom root u g w = Some (Some e, logged [CLstat root] w))
  ∧
  (∀ info pre s post w1 e,
     lstat_at w root = Ok info →
     walk_steps w root info = pre ++ s :: post →
     run_steps u g pre (logged [CLstat root] w) = (None, w1) →
     (run_step u g s w1).1 = Some e →
     let w' := (run_step u g s w1).2 in
     ChownRecursiveFrom root u g w = Some (Some e, w')
     ∧ match s with
       | SVisit p d =>
           lstat_at w1 p = Err e
           ∨ (∃ c, e = uid_error p c) ∨ (∃ c, e = gid_error p c)
       | SReadDir p d => (readdir_at w1 p).2 = Some e
       end
     ∧ (∀ k, k ∈ visited pre → fs w' !! k = owned u g <$> fs w !! k)
     ∧ (∀ k, k ∉ visited pre → k ≠ step_path s → fs w' !! k = fs w !! k)).
Proof.
  intros Hf. split.
  - intros e He. by rewrite ChownRecursiveFrom_run, He.
  - intros info pre s post w1 e Hl Hsteps Hpre He w'. subst w'.
    split.
    { rewrite ChownRecursiveFrom_run, Hl, Hsteps by done.
      by rewrite (run_steps_abort u g pre s post _ w1 e). }
    destruct (walk_prefix_inv u g w root info pre s post w1 Hl Hsteps Hpre)
      as [Hinv Hfresh].
    split.
    { pose proof (run_step_effect u g s w1 Hfresh) as [_ Heff].
      cbv zeta in Heff. destruct s as [p d|p d].
      - rewrite He in Heff.
        destruct Heff as [[_ ?]|(i & _ & [[_ ?]|[_ ?]])]; eauto.
      - destruct Heff as [_ <-]. done. }
    pose proof (run_step_failed_inv u g w (visited pre) s w1 e Hfresh Hinv He)
      as Hk.
    split; intros k; apply Hk.
Qed.

(** chown of /home/u/d is refused. *)
Definition chown_refused (c : call) : option Errno :=
  if bool_decide (c = CLchown dir_d 3000 (-1)) then Some EPERM else None.

Definition home_u_info : FileInfo := fileinfo_of home_u (dir 1000 1000).

Lemma ChownRecursiveFrom_aborts_at_first_error_witness :
  let w := world tree chown_refused in
  let all := walk_steps w home_u home_u_info in
  let s := SVisit dir_d (unixDirent home_u "d" ModeDir None) in
  let w1 := (run_steps uid_1000_3000 None (take 3 all) (logged [CLstat home_u] w)).2 in
  let w' := (run_step uid_1000_3000 None s w1).2 in
  ChownRecursiveFrom home_u uid_1000_3000 None w
    = Some (Some (uid_error dir_d EPERM), w')
  ∧ (lstat_at w1 dir_d = Err (uid_error dir_d EPERM)
     ∨ (∃ c, uid_error dir_d EPERM = uid_error dir_d c)
     ∨ (∃ c, uid_error dir_d EPERM = gid_error dir_d c))
  ∧ (∀ k, k ∈ visited (take 3 all)
          → fs w' !! k = owned uid_1000_3000 None <$> fs w !! k)
  ∧ (∀ k, k ∉ visited (take 3 all) → k ≠ dir_d → fs w' !! k = fs w !! k).
Proof.
  intros w all s w1 w'.
  destruct (ChownRecursiveFrom_aborts_at_first_error home_u uid_1000_3000 None w)
    as [_ H]; [left; eauto|].
  apply (H home_u_info (take 3 all) s (drop 4 all) w1 (uid_error dir_d EPERM));
    vm_compute; reflexivity.
Defined.

Lemma trace_set_fs_logged f cs w : trace (set_fs f (logged cs w)) = trace w ++ cs.
Proof. done. Qed.

Lemma fs_set_fs_logged f cs w : fs (set_fs f (logged cs w)) = f (fs w).
Proof. done. Qed.

Lemma visit_uid_then_gid a b p d i w :
  entry_info w d = Ok (fileinfo_of p i) → fs w !! p = Some i →
  uid i = FromUID a → gid i = FromGID b →
  let c1 := CLchown p (Z.of_N (ToUID a)) (-1) in
  let c2 := CLchown p (-1) (Z.of_N (ToGID b)) in
  faults w c1 = None →
  let out := visit (Some a) (Some b) p (Some d) None w in
  trace out.2 = trace w ++ info_calls d ++ [c1; c2]
  ∧ match faults w c2 with
    | Some e => out.1 = Some (gid_error p e)
                ∧ fs out.2 = <[p := owned (Some a) None i]> (fs w)
    | None => out.1 = None
              ∧ fs out.2 = <[p := owned (Some a) (Some b) i]> (fs w)
    end.
Proof.
  intros Hinfo Hi Hu Hg c1 c2 Hf1 out. subst out.
  rewrite visit_run, Hinfo.
  change (Sys (fileinfo_of p i)) with (Some (stat_of i)). cbv iota.
  pose proof (chown_steps_effect (Some a) (Some b) p i (logged (info_calls d) w) Hi)
    as [Hframe Hp].
  revert Hframe Hp.
  unfold chown_steps, uid_due, gid_due. cbn [stat_of Uid Gid].
  rewrite Hu, Hg, !N.eqb_refl. unfold mbind, M_bind.
  rewrite chown_step_run.
  pose proof (lchown_at_nofault (logged (info_calls d) w) p (Z.of_N (ToUID a)) (-1))
    as Hok1.
  rewrite Hok1 by (eauto || lia).
  pose proof (lchown_at_ok_lookup (logged (info_calls d) w) p
                (Z.of_N (ToUID a)) (-1) i Hi) as Hi2.
  rewrite Hok1 in Hi2 by (eauto || lia). specialize (Hi2 eq_refl).
  cbn [fmap option_fmap option_map]. rewrite chown_step_run.
  remember (set_fs _ (logged [CLchown p (Z.of_N (ToUID a)) (-1)]
                        (logged (info_calls d) w))) as w2 eqn:Ew2.
  assert (faults w2 = faults w) as Hf2 by (by subst w2).
  assert (trace w2 = trace w ++ info_calls d ++ [c1]) as Ht2.
  { subst w2. rewrite trace_set_fs_logged. cbn [trace logged set_trace].
    by rewrite <-app_assoc. }
  assert (is_Some (fs w2 !! p)) as Hp2.
  { subst w2. rewrite fs_set_fs_logged, Hi2. eauto. }
  clear Ew2 Hok1 Hi2. cbn [fst snd].
  rewrite trace_set_fs_logged, Ht2, <-!app_assoc. cbn [app]. fold c2.
  destruct (faults w c2) as [e|] eqn:Ef2.
  - assert (lchown_at w2 p (-1) (Z.of_N (ToGID b))
            = (Some (PathError "lchown" p (SyscallErrno e)), fs w2)) as ->.
    { unfold lchown_at. fold c2. by rewrite Hf2, Ef2. }
    cbn [fst snd fmap option_fmap option_map].
    intros Hframe Hp. split; [done|]. split; [done|].
    apply insert_ext; [|exact Hframe].
    destruct Hp as [[_ [c Hc]]|[Hp _]]; [discriminate Hc|exact Hp].
  - assert ((lchown_at w2 p (-1) (Z.of_N (ToGID b))).1 = None) as ->.
    { apply lchown_at_nofault; [done| |lia|lia]. fold c2. by rewrite Hf2. }
    cbn [fst snd fmap option_fmap option_map].
    intros Hframe Hp. split; [done|]. split; [done|]. by apply insert_ext.
Qed.

(** C9. An entry that matches both filters gets two separate Lchown
    calls, the UID change first and the GID change second.  When the UID
    change succeeds and the GID change fails, ChownRecursiveFrom returns
    the GID-change error and stops there; the entry keeps its new UID and
    its old GID. *)
Theorem ChownRecursiveFrom_uid_change_before_gid_change
    root a b w info pre p d post w1 i :
  let u := Some a in
  let g := Some b in
  let c1 := CLchown p (Z.of_N (ToUID a)) (-1) in
  let c2 := CLchown p (-1) (Z.of_N (ToGID b)) in
  lstat_at w root = Ok info →
  walk_steps w root info = pre ++ SVisit p d :: post →
  run_steps u g pre (logged [CLstat root] w) = (None, w1) →
  faults w (CLstat p) = None → fs w1 !! p = Some i →
  uid i = FromUID a → gid i = FromGID b →
  faults w c1 = None →
  let out := visit u g p (Some d) None w1 in
  trace out.2 = trace w1 ++ info_calls d ++ [c1; c2]
  ∧ (faults w c2 = None →
     out.1 = None ∧ fs out.2 !! p = Some (owned u g i))
  ∧ (∀ e, faults w c2 = Some e →
       ChownRecursiveFrom root u g w = Some (Some (gid_error p e), out.2)
       ∧ fs out.2 !! p
           = Some {| typ := typ i; perm := perm i;
                     uid := ToUID a; gid := gid i |}
       ∧ (∀ k, k ≠ p → fs out.2 !! k = fs w1 !! k)).
Proof.
  intros u g c1 c2 Hl Hsteps Hpre Hfl Hi Hu Hg Hf1 out. subst out.
  destruct (walk_prefix_inv u g w root info pre _ post w1 Hl Hsteps Hpre)
    as [_ Hfresh].
  assert (faults w1 = faults w) as Hfw.
  { pose proof (run_steps_stable u g pre (logged [CLstat root] w)) as [_ H].
    by rewrite Hpre in H. }
  assert (entry_info w1 d = Ok (fileinfo_of p i)) as Hinfo.
  { rewrite (fresh_info _ _ _ Hfresh). unfold lstat_at. by rewrite Hfw, Hfl, Hi. }
  destruct (visit_uid_then_gid a b p d i w1 Hinfo Hi Hu Hg) as [Htr Hcase].
  { by rewrite Hfw. }
  rewrite Hfw in Hcase. fold c1 c2 u g in Htr, Hcase.
  split; [exact Htr|]. split.
  - intros Hf2. fold c2 in Hf2. rewrite Hf2 in Hcase.
    destruct Hcase as [H1 H2]. split; [done|].
    rewrite H2. by rewrite lookup_insert_eq.
  - intros e Hf2. fold c2 in Hf2. rewrite Hf2 in Hcase.
    destruct Hcase as [H1 H2]. split; [|split].
    + rewrite ChownRecursiveFrom_run, Hl, Hsteps by (left; eauto).
      by rewrite (run_steps_abort u g pre (SVisit p d) post _ w1 (gid_error p e)).
    + rewrite H2, lookup_insert_eq. unfold owned. subst u. cbv iota.
      by rewrite Hu, N.eqb_refl.
    + intros k Hk. rewrite H2. by rewrite lookup_insert_ne.
Qed.

(** The group of /home/u/a cannot be changed. *)
Definition chgrp_refused (c : call) : option Errno :=
  if bool_decide (c = CLchown file_a (-1) 4000) then Some EPERM else None.

Lemma ChownRecursiveFrom_uid_change_before_gid_change_witness :
  let w := world tree chgrp_refused in
  let all := walk_steps w home_u home_u_info in
  let d := unixDirent home_u "a" 0 None in
  let w1 := (run_steps uid_1000_3000 gid_1000_4000 (take 2 all)
               (logged [CLstat home_u] w)).2 in
  let out := visit uid_1000_3000 gid_1000_4000 file_a (Some d) None w1 in
  trace out.2
    = trace w1 ++ [CLstat file_a] ++ [CLchown file_a 3000 (-1); CLchown file_a (-1) 4000]
  ∧ ChownRecursiveFrom home_u uid_1000_3000 gid_1000_4000 w
      = Some (Some (gid_error file_a EPERM), out.2)
  ∧ fs out.2 !! file_a = Some (file 3000 1000 "A")
  ∧ (∀ k, k ≠ file_a → fs out.2 !! k = fs w1 !! k).
Proof.
  intros w all d w1 out.
  destruct (ChownRecursiveFrom_uid_change_before_gid_change home_u
              (mkUIDArgs 1000 3000) (mkGIDArgs 1000 4000) w home_u_info
              (take 2 all) file_a d (drop 3 all) w1 (file 1000 1000 "A"))
    as (H1 & _ & H3); try (vm_compute; reflexivity).
  destruct (H3 EPERM) as (H4 & H5 & H6); [vm_compute; reflexivity|].
  split; [exact H1|]. split; [exact H4|]. split; [exact H5|exact H6].
Defined.

End ChownRecursiveFrom_properties.
